(** * Key-frame extraction: frame metrics and the change/stability engine

    A shallow embedding of the frame-difference processor (lines 366-998
    of [src/utils/videoProcessorML.ts]; the line numbers below are those of
    that file): the two frame metrics ([calculateFrameDifference],
    [calculateBlurScore]) and the sampling engine [processVideo].

    Numbers.  A JavaScript [number] is modelled by an exact rational [Q];
    integer loop counters, array lengths and pixel dimensions by [Z].  The
    two places where the source can produce [NaN] from a division by zero
    are written out ([smoothedDifference] is an [option]); the other
    divisions are guarded by the source itself.  Pixel buffers are
    [Uint8ClampedArray]s, modelled as [list Byte.byte]. *)

From Stdlib Require Import String Ascii.
From Stdlib Require Import ZArith QArith Qabs Qminmax Qround Qpower.
From Stdlib Require Import List Bool Lia Lqa Permutation Sorted.
From Stdlib.Strings Require Import Byte.
From Stdlib Require DecimalString.
Import ListNotations.

Local Open Scope Z_scope.
Local Open Scope Q_scope.

(** ** Loops *)

(** [for (let i = start; cond(i); i += step) s = body(i, s)].  The fuel is
    an upper bound on the number of iterations, given at every use. *)
Fixpoint for_loop {S : Type} (fuel : nat) (i step : Z) (cond : Z -> bool)
    (body : Z -> S -> S) (s : S) : S :=
  match fuel with
  | O => s
  | Datatypes.S fuel' =>
      if cond i then for_loop fuel' (i + step)%Z step cond body (body i s)
      else s
  end.

(** ** Comparisons on numbers *)

Definition Qltb (x y : Q) : bool := negb (Qle_bool y x).
Definition Qgtb (x y : Q) : bool := Qltb y x.
Definition Qgeb (x y : Q) : bool := Qle_bool y x.

(** ** Pixel buffers *)

Record ImageData := mkImageData {
  width : Z;
  height : Z;
  data : list byte
}.

(** What the browser guarantees of every [ImageData]: positive dimensions
    and four bytes (R, G, B, A) per pixel. *)
Definition wellFormed (f : ImageData) : Prop :=
  (0 < width f)%Z /\ (0 < height f)%Z /\
  Z.of_nat (length (data f)) = (4 * width f * height f)%Z.

(** [d[i]] as a number.  Every read below is in range on a well-formed
    frame (see [pixel_index_in_range] and [sample_index_in_range]); out of
    range the source reads [undefined]. *)
Definition at_ (d : list byte) (i : Z) : Q :=
  inject_Z (Z.of_N (Byte.to_N (nth (Z.to_nat i) d x00))).

(** ** Difference analyzer *)

Definition bins : Z := 64.

(** [Math.min(bins - 1, Math.floor((v / 255) * bins))] *)
Definition binOf (v : Q) : Z :=
  Z.min (bins - 1) (Qfloor ((v / 255) * inject_Z bins)).

(** [hist[i]++] on an array of fixed length. *)
Fixpoint bump (i : nat) (hist : list Q) : list Q :=
  match hist with
  | [] => []
  | c :: rest =>
      match i with
      | O => (c + 1) :: rest
      | Datatypes.S j => c :: bump j rest
      end
  end.

Definition bumpAt (i : Z) (hist : list Q) : list Q := bump (Z.to_nat i) hist.

(** One sample of one frame: three increments, one per channel. *)
Definition addSample (d : list byte) (i : Z) (hist : list Q) : list Q :=
  let r := binOf (at_ d i) in
  let g := binOf (at_ d (i + 1)) in
  let b := binOf (at_ d (i + 2)) in
  bumpAt (bins * 2 + b) (bumpAt (bins + g) (bumpAt r hist)).

Definition sampleRate (d : list byte) : Z :=
  let pixelCount := inject_Z (Z.of_nat (length d)) / 4 in
  Z.max 1 (Qfloor (pixelCount / 10000)).

(** The histogram-building loop; the state is [(hist1, hist2)]. *)
Definition buildHistograms (data1 data2 : list byte) : list Q * list Q :=
  let len := Z.of_nat (length data1) in
  for_loop (length data1) 0%Z (4 * sampleRate data1)%Z
    (fun i => (i <? len)%Z)
    (fun i '(hist1, hist2) => (addSample data1 i hist1, addSample data2 i hist2))
    (repeat 0 (Z.to_nat (bins * 3)), repeat 0 (Z.to_nat (bins * 3))).

Definition normalize (total : Z) (hist : list Q) : list Q :=
  if (0 <? total)%Z then map (fun c => c / inject_Z total) hist else hist.

(** One bin of the comparison loop; the state is [(intersection, chiSquare)]. *)
Definition compareBin (s : Q * Q) (h : Q * Q) : Q * Q :=
  let '(intersection, chiSquare) := s in
  let '(h1, h2) := h in
  let sum := h1 + h2 in
  (intersection + Qmin h1 h2,
   if Qgtb sum 0 then chiSquare + ((h1 - h2) * (h1 - h2)) / sum else chiSquare).

Definition compareHistograms (hist1 hist2 : list Q) : Q :=
  let '(intersection, chiSquare) :=
    fold_left compareBin (combine hist1 hist2) (0, 0) in
  let intersectionDiff := 1 - intersection in
  let chiSquareDiff := Qmin 1 (chiSquare / inject_Z (Z.of_nat (length hist1))) in
  intersectionDiff * (4 # 10) + chiSquareDiff * (6 # 10).

Definition calculateHistogramDifference (frame1 frame2 : ImageData) : Q :=
  if negb (width frame1 =? width frame2)%Z || negb (height frame1 =? height frame2)%Z
  then 1
  else
    let data1 := data frame1 in
    let data2 := data frame2 in
    let '(hist1, hist2) := buildHistograms data1 data2 in
    let total :=
      Qfloor (inject_Z (Z.of_nat (length data1)) / inject_Z (4 * sampleRate data1)) in
    compareHistograms (normalize total hist1) (normalize total hist2).

Definition blockSize : Z := 32.

(** Mean absolute channel difference of the pixel at byte offset [idx]. *)
Definition pixelDiff (frame1 frame2 : ImageData) (idx : Z) : Q :=
  (Qabs (at_ (data frame1) idx - at_ (data frame2) idx)
   + Qabs (at_ (data frame1) (idx + 1) - at_ (data frame2) (idx + 1))
   + Qabs (at_ (data frame1) (idx + 2) - at_ (data frame2) (idx + 2)))
  / (3 * 255).

(** The two inner loops over one block; the state is [(blockDiff, pixelCount)]. *)
Definition compareBlock (frame1 frame2 : ImageData) (bx by_ : Z) : Q * Z :=
  let w := width frame1 in
  let h := height frame1 in
  for_loop (Z.to_nat blockSize) 0%Z 1%Z
    (fun py => (py <? blockSize)%Z && (by_ * blockSize + py <? h)%Z)
    (fun py s =>
       for_loop (Z.to_nat blockSize) 0%Z 1%Z
         (fun px => (px <? blockSize)%Z && (bx * blockSize + px <? w)%Z)
         (fun px '(blockDiff, pixelCount) =>
            let x := (bx * blockSize + px)%Z in
            let y := (by_ * blockSize + py)%Z in
            let idx := ((y * w + x) * 4)%Z in
            (blockDiff + pixelDiff frame1 frame2 idx, (pixelCount + 1)%Z))
         s)
    (0, 0%Z).

(** The state of the two outer loops is [(totalDiff, blockCount)]. *)
Definition calculateStructuralDifference (frame1 frame2 : ImageData) : Q :=
  let blocksX := (width frame1 / blockSize)%Z in
  let blocksY := (height frame1 / blockSize)%Z in
  let '(totalDiff, blockCount) :=
    for_loop (Z.to_nat blocksY) 0%Z 1%Z (fun by_ => (by_ <? blocksY)%Z)
      (fun by_ s =>
         for_loop (Z.to_nat blocksX) 0%Z 1%Z (fun bx => (bx <? blocksX)%Z)
           (fun bx '(totalDiff, blockCount) =>
              let '(blockDiff, pixelCount) := compareBlock frame1 frame2 bx by_ in
              if (0 <? pixelCount)%Z
              then (totalDiff + blockDiff / inject_Z pixelCount, (blockCount + 1)%Z)
              else (totalDiff, blockCount))
           s)
      (0, 0%Z) in
  if (0 <? blockCount)%Z then totalDiff / inject_Z blockCount else 0.

(** The [useHistogram = false] fallback: every 16th pixel. *)
Definition pixelComparison (frame1 frame2 : ImageData) : Q :=
  let data1 := data frame1 in
  let len := Z.of_nat (length data1) in
  let '(diff, totalPixels) :=
    for_loop (length data1) 0%Z (4 * 16)%Z (fun i => (i <? len)%Z)
      (fun i '(diff, totalPixels) =>
         let rDiff := Qabs (at_ data1 i - at_ (data frame2) i) in
         let gDiff := Qabs (at_ data1 (i + 1) - at_ (data frame2) (i + 1)) in
         let bDiff := Qabs (at_ data1 (i + 2) - at_ (data frame2) (i + 2)) in
         (diff + (rDiff + gDiff + bDiff) / 3 / 255, (totalPixels + 1)%Z))
      (0, 0%Z) in
  if (0 <? totalPixels)%Z then diff / inject_Z totalPixels else 0.

Definition calculateFrameDifference (frame1 frame2 : ImageData)
    (useHistogram : bool) : Q :=
  if negb (width frame1 =? width frame2)%Z || negb (height frame1 =? height frame2)%Z
  then 1
  else if useHistogram then
    let histDiff := calculateHistogramDifference frame1 frame2 in
    let structDiff := calculateStructuralDifference frame1 frame2 in
    histDiff * (3 # 10) + structDiff * (7 # 10)
  else pixelComparison frame1 frame2.

(** ** Sharpness scorer *)

(** [getGray(dx, dy)] at the pixel [(x, y)]. *)
Definition getGray (imageData : ImageData) (x y dx dy : Z) : Q :=
  let idx := (((y + dy) * width imageData + (x + dx)) * 4)%Z in
  let d := data imageData in
  at_ d idx * (299 # 1000) + at_ d (idx + 1) * (587 # 1000)
  + at_ d (idx + 2) * (114 # 1000).

Definition laplacianValue (imageData : ImageData) (x y : Z) : Q :=
  let center := getGray imageData x y 0 0 in
  let top := getGray imageData x y 0 (-1) in
  let bottom := getGray imageData x y 0 1 in
  let left := getGray imageData x y (-1) 0 in
  let right := getGray imageData x y 1 0 in
  Qabs (4 * center - top - bottom - left - right).

(** The Laplacian responses of the interior pixels, in push order. *)
Definition laplacianOf (imageData : ImageData) : list Q :=
  let w := width imageData in
  let h := height imageData in
  for_loop (Z.to_nat h) 1%Z 1%Z (fun y => (y <? h - 1)%Z)
    (fun y acc =>
       for_loop (Z.to_nat w) 1%Z 1%Z (fun x => (x <? w - 1)%Z)
         (fun x acc => acc ++ [laplacianValue imageData x y])
         acc)
    [].

(** [xs.reduce((a, b) => a + b, 0)] *)
Definition sumOf (xs : list Q) : Q := fold_left Qplus xs 0.

Definition varianceOf (xs : list Q) : Q :=
  let n := inject_Z (Z.of_nat (length xs)) in
  let mean := sumOf xs / n in
  fold_left (fun sum val => sum + (val - mean) ^ 2) xs 0 / n.

Definition calculateBlurScore (imageData : ImageData) : Q :=
  let laplacian := laplacianOf imageData in
  match laplacian with
  | [] => 0
  | _ => varianceOf laplacian
  end.

(** ** Key-frame engine: data *)

Record ProcessingOptions := mkOptions {
  changeThreshold : Q;
  minScreenshotInterval : Q;
  sampleInterval : Q;
  motionSmoothing : Q;
  stabilityWindow : Q;
  stabilityThreshold : Q;
  minBlurThreshold : Q
}.

(** [Partial<ProcessingOptions>]: every field may be absent. *)
Record PartialOptions := mkPartial {
  changeThreshold_opt : option Q;
  minScreenshotInterval_opt : option Q;
  sampleInterval_opt : option Q;
  motionSmoothing_opt : option Q;
  stabilityWindow_opt : option Q;
  stabilityThreshold_opt : option Q;
  minBlurThreshold_opt : option Q
}.

(** [x ?? d] *)
Definition orElse (x : option Q) (d : Q) : Q :=
  match x with Some v => v | None => d end.

Definition resolveOptions (options : PartialOptions) : ProcessingOptions :=
  {| changeThreshold := orElse (changeThreshold_opt options) (12 # 100);
     minScreenshotInterval := orElse (minScreenshotInterval_opt options) 1;
     sampleInterval := orElse (sampleInterval_opt options) (2 # 10);
     motionSmoothing := orElse (motionSmoothing_opt options) 3;
     stabilityWindow := orElse (stabilityWindow_opt options) (5 # 10);
     stabilityThreshold := orElse (stabilityThreshold_opt options) (5 # 100);
     minBlurThreshold := orElse (minBlurThreshold_opt options) 100 |}.

Definition noOptions : PartialOptions :=
  mkPartial None None None None None None None.

(** The part of a screenshot [id] after the wall-clock stamp. *)
Inductive IdSuffix := IdFrame (n : Z) | IdFinal.

(** [dataUrl] is the encoding of a frame by the image encoder; it is
    represented by the frame it encodes. *)
Record Screenshot := mkScreenshot {
  id : IdSuffix;
  dataUrl : ImageData;
  timestamp : Q;
  frameNumber : Z;
  blurScore : Q
}.

(** An element of [stableFrames]; [sharpness] is its [blurScore] field. *)
Record StableFrame := mkStableFrame {
  time : Q;
  frame : ImageData;
  stability : Q;
  sharpness : Q
}.

(** [video.duration]: a finite number, or [NaN] / [Infinity]. *)
Inductive Duration := Finite (d : Q) | NotFinite.

(** The collaborators of a run.  [drawn k] is the pixel buffer that the
    [k]-th call of [captureFrame] reads back from the canvas, whatever the
    seek before it achieved. *)
Record Video := mkVideo {
  hasContext : bool;
  videoWidth : Z;
  videoHeight : Z;
  duration : Duration;
  drawn : nat -> ImageData
}.

Definition captureFrame (video : Video) (k : nat) : option ImageData :=
  if hasContext video then Some (drawn video k) else None.

(** The local variables of [processVideo]; [captures] counts the calls of
    [captureFrame], [frameCounter] is the local [frameNumber]. *)
Record Engine := mkEngine {
  screenshots : list Screenshot;
  baselineFrame : option ImageData;
  frameCounter : Z;
  lastScreenshotTime : Q;
  recentDifferences : list Q;
  changeDetectedAt : option Q;
  stableFrames : list StableFrame;
  currentTime : Q;
  captures : nat
}.

(** Truthiness of [changeDetectedAt]: [null] and [0] are falsy. *)
Definition isSet (t : option Q) : bool :=
  match t with
  | Some v => negb (Qeq_bool v 0)
  | None => false
  end.

(** [xs.sort(cmp)]: the stable order in which [a] stays before [b] unless
    [cmp a b > 0]. *)
Fixpoint insertBy {A : Type} (cmp : A -> A -> Q) (x : A) (sorted : list A) : list A :=
  match sorted with
  | [] => [x]
  | y :: rest =>
      if Qgtb (cmp y x) 0 then x :: y :: rest else y :: insertBy cmp x rest
  end.

Definition sortBy {A : Type} (cmp : A -> A -> Q) (xs : list A) : list A :=
  fold_left (fun sorted x => insertBy cmp x sorted) xs [].

Definition bySharpness (a b : StableFrame) : Q := sharpness b - sharpness a.

Definition score (a : StableFrame) : Q :=
  sharpness a * (7 # 10) + (1 - stability a) * (3 # 10).

Definition byScore (a b : StableFrame) : Q := score b - score a.

(** ** Key-frame engine: the steps of one iteration *)

Section Run.

Variable video : Video.
Variable opts : ProcessingOptions.

(** Lines 715-744: the first baseline and screenshot 0. *)
Definition bootstrap : Engine :=
  let start := (1 # 10) + stabilityWindow opts in
  let e1 :=
    match captureFrame video 0 with
    | None => mkEngine [] None 0 (-1) [] None [] (1 # 10) 1
    | Some firstFrame =>
        match captureFrame video 1 with
        | None => mkEngine [] (Some firstFrame) 1 (-1) [] None [] (1 # 10) 2
        | Some stableFrame =>
            let screenshot :=
              mkScreenshot (IdFrame 0) stableFrame start 0
                (calculateBlurScore stableFrame) in
            mkEngine [screenshot] (Some stableFrame) 1 start
              [] None [] (1 # 10) 2
        end
    end in
  mkEngine (screenshots e1) (baselineFrame e1) (frameCounter e1)
    (lastScreenshotTime e1) (recentDifferences e1) (changeDetectedAt e1)
    (stableFrames e1) (start + sampleInterval opts) (captures e1).

(** Lines 762-765: [push], then [shift] when over [motionSmoothing]. *)
Definition pushDifference (recent : list Q) (difference : Q) : list Q :=
  let recent' := recent ++ [difference] in
  if Qgtb (inject_Z (Z.of_nat (length recent'))) (motionSmoothing opts)
  then tl recent' else recent'.

(** Line 768; [None] is the [NaN] of [0 / 0]. *)
Definition smoothed (recent : list Q) : option Q :=
  match recent with
  | [] => None
  | _ => Some (sumOf recent / inject_Z (Z.of_nat (length recent)))
  end.

(** Lines 783-805: the candidate collection. *)
Definition collectStable (changeAt : option Q) (stable : list StableFrame)
    (now : Q) (currentFrame : ImageData) (difference : Q) : list StableFrame :=
  let isStable := Qltb difference (stabilityThreshold opts) in
  if isStable && negb (isSet changeAt) then
    let blur := calculateBlurScore currentFrame in
    if Qgeb blur (minBlurThreshold opts) then
      let stable' := stable ++ [mkStableFrame now currentFrame difference blur] in
      if (5 <? Z.of_nat (length stable'))%Z
      then firstn 5 (sortBy bySharpness stable')
      else stable'
    else stable
  else stable.

(** Lines 808-809. *)
Definition isSignificantChange (recent : list Q) (difference : Q) : bool :=
  match smoothed recent with
  | Some s => Qgtb s (changeThreshold opts)
  | None => false
  end
  || Qgtb difference (changeThreshold opts * (15 # 10)).

(** Lines 811-816: the new [(changeDetectedAt, stableFrames)]. *)
Definition detectChange (changeAt : option Q) (stable : list StableFrame)
    (now : Q) (significant : bool) : option Q * list StableFrame :=
  if significant && negb (isSet changeAt) then (Some now, []) else (changeAt, stable).

(** Line 819. *)
Definition windowElapsed (changeAt : option Q) (now : Q) : bool :=
  match changeAt with
  | Some t => negb (Qeq_bool t 0) && Qgeb (now - t) (stabilityWindow opts)
  | None => false
  end.

(** Lines 821-879: what the closing window emits; the result is the new
    [(screenshots, lastScreenshotTime, baselineFrame)].  A sort keeps the
    length of the array, so [stableFrames[0]] exists in the first branch. *)
Definition resolveWindow (e : Engine) (stable : list StableFrame)
    (frameNumber' : Z) (currentFrame : ImageData)
    : list Screenshot * Q * option ImageData :=
  let now := currentTime e in
  let unchanged := (screenshots e, lastScreenshotTime e, baselineFrame e) in
  let due := Qgeb (now - lastScreenshotTime e) (minScreenshotInterval opts) in
  if (0 <? Z.of_nat (length stable))%Z && due then
    match sortBy byScore stable with
    | bestFrame :: _ =>
        (screenshots e ++
           [mkScreenshot (IdFrame frameNumber') (frame bestFrame) (time bestFrame)
              frameNumber' (sharpness bestFrame)],
         time bestFrame, Some (frame bestFrame))
    | [] => unchanged
    end
  else if (Z.of_nat (length stable) =? 0)%Z && due then
    let blur := calculateBlurScore currentFrame in
    if Qgeb blur (minBlurThreshold opts) then
      (screenshots e ++
         [mkScreenshot (IdFrame frameNumber') currentFrame now frameNumber' blur],
       now, Some currentFrame)
    else unchanged
  else unchanged.

(** Lines 747-897: the body of the sampling loop.  The debug log of every
    tenth frame and the seek to the next sample point change no variable. *)
Definition iteration (e : Engine) : Engine :=
  let now := currentTime e in
  let k := Datatypes.S (captures e) in
  let next :=
    mkEngine (screenshots e) (baselineFrame e) (frameCounter e)
      (lastScreenshotTime e) (recentDifferences e) (changeDetectedAt e)
      (stableFrames e) (now + sampleInterval opts) k in
  match captureFrame video (captures e), baselineFrame e with
  | Some currentFrame, Some baseline =>
      let frameNumber' := (frameCounter e + 1)%Z in
      let difference := calculateFrameDifference baseline currentFrame true in
      let recent := pushDifference (recentDifferences e) difference in
      let stable :=
        collectStable (changeDetectedAt e) (stableFrames e) now currentFrame
          difference in
      let '(changeAt, stable') :=
        detectChange (changeDetectedAt e) stable now
          (isSignificantChange recent difference) in
      if windowElapsed changeAt now then
        let '(shots, last, baseline') :=
          resolveWindow e stable' frameNumber' currentFrame in
        mkEngine shots baseline' frameNumber' last [] None []
          (now + minScreenshotInterval opts * (5 # 10)) k
      else
        mkEngine (screenshots e) (baselineFrame e) frameNumber'
          (lastScreenshotTime e) recent changeAt stable'
          (now + sampleInterval opts) k
  | _, _ => next
  end.

(** [n] iterations of the loop body. *)
Fixpoint iterations (n : nat) (e : Engine) : Engine :=
  match n with
  | O => e
  | Datatypes.S n' => iterations n' (iteration e)
  end.

(** Line 746: [while (currentTime < duration - 0.1)]; [None] when the fuel
    does not reach the exit of the loop. *)
Fixpoint sampling (fuel : nat) (d : Q) (e : Engine) : option Engine :=
  match fuel with
  | O => None
  | Datatypes.S fuel' =>
      if Qltb (currentTime e) (d - (1 # 10))
      then sampling fuel' d (iteration e)
      else Some e
  end.

(** Lines 901-921: the pending change at the end of the stream. *)
Definition pendingChange (e : Engine) : Engine :=
  if isSet (changeDetectedAt e) && (0 <? Z.of_nat (length (stableFrames e)))%Z then
    match sortBy byScore (stableFrames e) with
    | bestFrame :: sorted =>
        let e' :=
          mkEngine (screenshots e) (baselineFrame e) (frameCounter e)
            (lastScreenshotTime e) (recentDifferences e) (changeDetectedAt e)
            (bestFrame :: sorted) (currentTime e) (captures e) in
        if Qgeb (time bestFrame - lastScreenshotTime e) (minScreenshotInterval opts)
        then
          mkEngine
            (screenshots e ++
               [mkScreenshot (IdFrame (frameCounter e)) (frame bestFrame)
                  (time bestFrame) (frameCounter e) (sharpness bestFrame)])
            (baselineFrame e') (frameCounter e') (lastScreenshotTime e')
            (recentDifferences e') (changeDetectedAt e') (stableFrames e')
            (currentTime e') (captures e')
        else e'
    | [] => e
    end
  else e.

(** Lines 923-959: the final frame. *)
Definition finalFrame (d : Q) (e : Engine) : list Screenshot :=
  match captureFrame video (captures e) with
  | None => screenshots e
  | Some final =>
      let blur := calculateBlurScore final in
      match rev (screenshots e) with
      | lastScreenshot :: _ =>
          if Qgeb (Qabs (d - timestamp lastScreenshot)) (minScreenshotInterval opts)
             && Qgeb blur (minBlurThreshold opts)
          then screenshots e ++
                 [mkScreenshot (IdFrame (frameCounter e + 1)) final (d - (1 # 10))
                    (frameCounter e + 1) blur]
          else screenshots e
      | [] =>
          if Qgeb blur (minBlurThreshold opts)
          then screenshots e ++ [mkScreenshot IdFinal final (d - (1 # 10)) 0 blur]
          else screenshots e
      end
  end.

End Run.

Inductive Failure := NoCanvasContext | NoVideoDimensions | InvalidDuration.

Inductive Outcome :=
| Threw (why : Failure)
| Returned (shots : list Screenshot).

(** [processVideo]: [None] when [fuel] iterations do not reach the end of
    the sampling loop.  The waits ([loadeddata], seeks, timers) and the
    [onProgress] calls carry no state of the engine; every [onScreenshot]
    call goes with a [push] onto [screenshots], so the returned list is
    also the sequence of emitted screenshots. *)
Definition processVideo (fuel : nat) (video : Video) (options : PartialOptions)
    : option Outcome :=
  let opts := resolveOptions options in
  if negb (hasContext video) then Some (Threw NoCanvasContext)
  else if (videoWidth video =? 0)%Z || (videoHeight video =? 0)%Z
  then Some (Threw NoVideoDimensions)
  else
    match duration video with
    | NotFinite => Some (Threw InvalidDuration)
    | Finite d =>
        if Qeq_bool d 0 then Some (Threw InvalidDuration)
        else
          match sampling video opts fuel d (bootstrap video opts) with
          | None => None
          | Some e => Some (Returned (finalFrame video opts d (pendingChange opts e)))
          end
    end.

(** ** Display helpers *)







(** [Math.round]: the nearest integer, halves upwards. *)
Definition round (x : Q) : Z := Qfloor (x + (1 # 2)).

(** Lines 977-982; [None] is [undefined]. *)
Definition getClarityIndex (blurScore : option Q) : Z :=
  match blurScore with
  | None => 0
  | Some b =>
      if Qeq_bool b 0 then 0%Z
      else Z.min 100 (round ((b / 300) * 100))
  end.


(** ** The caller *)

(** The options that [handleProcess] of [App.tsx] (lines 84-92) builds from
    the three sliders. *)
Definition appOptions (changeThreshold minInterval blurThreshold : Q)
    : PartialOptions :=
  mkPartial (Some changeThreshold) (Some minInterval) (Some (2 # 10)) (Some 3)
    (Some (5 # 10)) (Some (5 # 100)) (Some blurThreshold).

(** ** The object-detection processor (lines 1-365) *)

Module ML.

Definition Box : Type := Q * Q * Q * Q.

(** A detection of COCO-SSD: [bbox] is [[x, y, width, height]]. *)
Record DetectedObject := mkObject {
  bbox : Box;
  class : String.string;
  score : Q
}.

(** Lines 120-145: intersection over union. *)
Definition calculateBoxOverlap (box1 box2 : Box) : Q :=
  let '(x1, y1, w1, h1) := box1 in
  let '(x2, y2, w2, h2) := box2 in
  let x1_end := x1 + w1 in
  let y1_end := y1 + h1 in
  let x2_end := x2 + w2 in
  let y2_end := y2 + h2 in
  let interX1 := Qmax x1 x2 in
  let interY1 := Qmax y1 y2 in
  let interX2 := Qmin x1_end x2_end in
  let interY2 := Qmin y1_end y2_end in
  if Qle_bool interX2 interX1 || Qle_bool interY2 interY1 then 0
  else
    let interArea := (interX2 - interX1) * (interY2 - interY1) in
    let box1Area := w1 * h1 in
    let box2Area := w2 * h2 in
    let unionArea := box1Area + box2Area - interArea in
    if Qgtb unionArea 0 then interArea / unionArea else 0.

(** [usedIndices.has(i)] on the set of indices, kept as a list. *)
Definition has (usedIndices : list Z) (i : Z) : bool :=
  existsb (Z.eqb i) usedIndices.

Definition noObject : DetectedObject := mkObject (0, 0, 0, 0) String.EmptyString 0.

(** Lines 92-104: the inner loop; the state is [(bestOverlap, bestIndex)]. *)
Definition bestMatch (obj1 : DetectedObject) (objects2 : list DetectedObject)
    (usedIndices : list Z) : Q * Z :=
  for_loop (length objects2) 0%Z 1%Z
    (fun i => (i <? Z.of_nat (length objects2))%Z)
    (fun i '(bestOverlap, bestIndex) =>
       if has usedIndices i then (bestOverlap, bestIndex)
       else
         let obj2 := nth (Z.to_nat i) objects2 noObject in
         let overlap := calculateBoxOverlap (bbox obj1) (bbox obj2) in
         if Qgtb overlap bestOverlap && String.eqb (class obj1) (class obj2)
         then (overlap, i)
         else (bestOverlap, bestIndex))
    (0, (-1)%Z).

(** Lines 91-110: one round of the outer loop; the state is
    [(totalOverlap, usedIndices)]. *)
Definition matchObject (objects2 : list DetectedObject) (s : Q * list Z)
    (obj1 : DetectedObject) : Q * list Z :=
  let '(totalOverlap, usedIndices) := s in
  let '(bestOverlap, bestIndex) := bestMatch obj1 objects2 usedIndices in
  if (0 <=? bestIndex)%Z
  then (totalOverlap + bestOverlap, bestIndex :: usedIndices)
  else (totalOverlap, usedIndices).

(** Lines 79-115. *)
Definition calculateObjectSimilarity (objects1 objects2 : list DetectedObject) : Q :=
  match objects1, objects2 with
  | [], [] => 1
  | [], _ | _, [] => 0
  | _, _ =>
      let '(totalOverlap, _) :=
        fold_left (matchObject objects2) objects1 (0, []) in
      let avgCount :=
        (inject_Z (Z.of_nat (length objects1)) + inject_Z (Z.of_nat (length objects2)))
        / 2 in
      if Qgtb avgCount 0 then totalOverlap / avgCount else 0
  end.

(** The [Screenshot] of this processor carries no blur score. *)
Record Screenshot := mkScreenshot {
  id : Z;
  dataUrl : ImageData;
  timestamp : Q;
  frameNumber : Z
}.

(** The collaborators of a run: [modelLoads] tells whether [loadModel]
    succeeds, [detected k] is what the [k]-th [detectObjects] returns (the
    empty list when the detection fails), [drawn video k] the canvas after
    the [k]-th [drawImage]. *)
Record World := mkWorld {
  video : Video;
  modelLoads : bool;
  detected : nat -> list DetectedObject
}.

(** The local variables of [processVideo]; [round] counts the iterations. *)
Record Engine := mkEngine {
  screenshots : list Screenshot;
  lastObjects : list DetectedObject;
  frameCounter : Z;
  lastScreenshotTime : Q;
  currentTime : Q;
  round : nat
}.

Definition MIN_SCREENSHOT_INTERVAL : Q := 1.
Definition CHANGE_THRESHOLD : Q := 5 # 10.
Definition SAMPLE_INTERVAL : Q := 5 # 10.

Definition start : Engine := mkEngine [] [] 0 (-1) 0 0.

(** Lines 240-317: the body of the loop. *)
Definition iteration (w : World) (e : Engine) : Engine :=
  let now := currentTime e in
  let currentObjects := detected w (round e) in
  let frameNumber' := (frameCounter e + 1)%Z in
  let capture (n : Z) :=
    screenshots e ++ [mkScreenshot n (drawn (video w) (round e)) now n] in
  let keep (shots : list Screenshot) (last : Q) :=
    mkEngine shots currentObjects frameNumber' last (now + SAMPLE_INTERVAL)
      (Datatypes.S (round e)) in
  match screenshots e with
  | [] => keep (capture 0%Z) now
  | _ :: _ =>
      if (0 <? Z.of_nat (length (lastObjects e)))%Z
         || (0 <? Z.of_nat (length currentObjects))%Z
      then
        let similarity := calculateObjectSimilarity (lastObjects e) currentObjects in
        let hasSignificantChange :=
          Qltb similarity CHANGE_THRESHOLD
          || (0 <? Z.abs (Z.of_nat (length currentObjects)
                          - Z.of_nat (length (lastObjects e))))%Z in
        if hasSignificantChange
           && Qgeb (now - lastScreenshotTime e) MIN_SCREENSHOT_INTERVAL
        then keep (capture frameNumber') now
        else keep (screenshots e) (lastScreenshotTime e)
      else keep (screenshots e) (lastScreenshotTime e)
  end.

(** Line 236: [while (currentTime < duration - 0.1)]. *)
Fixpoint sampling (fuel : nat) (w : World) (d : Q) (e : Engine) : option Engine :=
  match fuel with
  | O => None
  | Datatypes.S fuel' =>
      if Qltb (currentTime e) (d - (1 # 10))
      then sampling fuel' w d (iteration w e)
      else Some e
  end.

(** Lines 319-339: the final frame. *)
Definition finalFrame (w : World) (d : Q) (e : Engine) : list Screenshot :=
  match rev (screenshots e) with
  | lastScreenshot :: _ =>
      if Qgeb (Qabs (d - timestamp lastScreenshot)) MIN_SCREENSHOT_INTERVAL
      then screenshots e ++
             [mkScreenshot (frameCounter e + 1) (drawn (video w) (round e)) d
                (frameCounter e + 1)]
      else screenshots e
  | [] => screenshots e
  end.

Inductive Failure :=
| ModelLoadingFailed | NoCanvasContext | NoVideoDimensions | InvalidDuration.

Inductive Outcome :=
| Threw (why : Failure)
| Returned (shots : list Screenshot).

(** Lines 182-345; [None] when [fuel] iterations do not leave the loop. *)
Definition processVideo (fuel : nat) (w : World) : option Outcome :=
  if negb (modelLoads w) then Some (Threw ModelLoadingFailed)
  else if negb (hasContext (video w)) then Some (Threw NoCanvasContext)
  else if (videoWidth (video w) =? 0)%Z || (videoHeight (video w) =? 0)%Z
  then Some (Threw NoVideoDimensions)
  else
    match duration (video w) with
    | NotFinite => Some (Threw InvalidDuration)
    | Finite d =>
        if Qeq_bool d 0 then Some (Threw InvalidDuration)
        else
          match sampling fuel w d start with
          | None => None
          | Some e => Some (Returned (finalFrame w d e))
          end
    end.

End ML.

(** * Vocabulary of the statements *)

(** Two accumulators of the same loop, equal as numbers. *)
Definition sameQQ (s t : Q * Q) : Prop := fst s == fst t /\ snd s == snd t.
Definition sameQZ (s t : Q * Z) : Prop := fst s == fst t /\ snd s = snd t.

(** The sum of the bins of a histogram. *)
Definition binTotal (hist : list Q) : Q := fold_right Qplus 0 hist.

(** After [k] samples both histograms are the same list, of sum [3 k]. *)
Definition sampledTwice (k : Z) (s : list Q * list Q) : Prop :=
  fst s = snd s /\ length (fst s) = Z.to_nat (bins * 3) /\
  binTotal (fst s) == 3 * inject_Z k.

(** A frame all of whose pixels have the colour [(r, g, b)]. *)
Definition uniformColor (imageData : ImageData) (r g b : Q) : Prop :=
  forall p, (0 <= p < width imageData * height imageData)%Z ->
    at_ (data imageData) (p * 4) = r /\
    at_ (data imageData) (p * 4 + 1) = g /\
    at_ (data imageData) (p * 4 + 2) = b.

(** No candidate is held while a change is pending. *)
Definition noCandidateWhilePending (changeAt : option Q)
    (stable : list StableFrame) : Prop :=
  isSet changeAt = true -> stable = [].

(** The time stamp of the last screenshot of [l], or [prev] if there is
    none. *)
Fixpoint lastStamp (prev : Q) (l : list Screenshot) : Q :=
  match l with
  | [] => prev
  | s :: rest => lastStamp (timestamp s) rest
  end.

(** Every screenshot of [l] is at least [gap] after the one before it,
    the first one after [prev]. *)
Fixpoint spacedFrom (gap prev : Q) (l : list Screenshot) : Prop :=
  match l with
  | [] => True
  | s :: rest => gap <= timestamp s - prev /\ spacedFrom gap (timestamp s) rest
  end.

Definition spaced (gap : Q) (l : list Screenshot) : Prop :=
  match l with
  | [] => True
  | s :: rest => spacedFrom gap (timestamp s) rest
  end.

(** The screenshots so far keep the interval, and [lastScreenshotTime] is
    the time stamp of the last of them. *)
Definition intervalKept (opts : ProcessingOptions) (e : Engine) : Prop :=
  spaced (minScreenshotInterval opts) (screenshots e) /\
  (screenshots e <> [] -> lastStamp 0 (screenshots e) = lastScreenshotTime e).

(** The first screenshot of a run. *)
Definition screenshot0 (video : Video) (opts : ProcessingOptions) : Screenshot :=
  mkScreenshot (IdFrame 0) (drawn video 1) ((1 # 10) + stabilityWindow opts) 0
    (calculateBlurScore (drawn video 1)).



(** The baseline and [lastScreenshotTime] belong to the last screenshot. *)
Definition baselineIsLastShot (shots : list Screenshot)
    (baseline : option ImageData) (last : Q) : Prop :=
  match rev shots with
  | s :: _ => baseline = Some (dataUrl s) /\ last = timestamp s
  | [] => last = -1
  end.

(** The state of a run on a video that only ever shows [still]: screenshot
    [first] alone, [still] as the baseline, no change pending, and a
    history of differences of a frame from itself. *)
Definition quiet (still : ImageData) (first : Screenshot) (e : Engine) : Prop :=
  screenshots e = [first] /\
  baselineFrame e = Some still /\
  changeDetectedAt e = None /\
  Forall (fun x => x <= - (6 # 25)) (recentDifferences e).

(** A running sum of [count] values between 0 and 1. *)
Definition averaged (s : Q * Z) : Prop :=
  (0 <= snd s)%Z /\ 0 <= fst s /\ fst s <= inject_Z (snd s).

(** A histogram of [k] samples: full length, sum [3 k], no negative bin. *)
Definition histogramOf (k : Z) (hist : list Q) : Prop :=
  length hist = Z.to_nat (bins * 3) /\
  binTotal hist == 3 * inject_Z k /\
  Forall (fun c => 0 <= c) hist.

(** Both histograms after [k] samples taken every [step] bytes of a buffer
    of [len] bytes; the last sample started inside the buffer. *)
Definition sampled (len step k : Z) (s : list Q * list Q) : Prop :=
  (k = 0 \/ step * (k - 1) < len)%Z /\
  histogramOf k (fst s) /\ histogramOf k (snd s).



(** Consecutive time stamps are at least [gap] apart. *)
Fixpoint apartFrom (gap prev : Q) (stamps : list Q) : Prop :=
  match stamps with
  | [] => True
  | t :: rest => gap <= t - prev /\ apartFrom gap t rest
  end.

Definition apart (gap : Q) (stamps : list Q) : Prop :=
  match stamps with
  | [] => True
  | t :: rest => apartFrom gap t rest
  end.

(** A bounding box with no negative side. *)
Definition properBox (b : ML.Box) : Prop :=
  let '(_, _, w, h) := b in 0 <= w /\ 0 <= h.



(** The last of the time stamps, or [prev] if there is none. *)
Fixpoint lastOr (prev : Q) (stamps : list Q) : Q :=
  match stamps with
  | [] => prev
  | t :: rest => lastOr t rest
  end.

(** The screenshots of the object-detection processor inside its loop:
    apart by the minimum interval, the last one at [lastScreenshotTime],
    all of them stamped before [limit]. *)
Definition keptApart (limit : Q) (e : ML.Engine) : Prop :=
  let stamps := map ML.timestamp (ML.screenshots e) in
  apart ML.MIN_SCREENSHOT_INTERVAL stamps /\
  (stamps <> [] -> lastOr 0 stamps = ML.lastScreenshotTime e) /\
  Forall (fun t => t < limit) stamps.

(** The first screenshot of the object-detection processor. *)
Definition firstCapture (w : ML.World) : ML.Screenshot :=
  ML.mkScreenshot 0 (drawn (ML.video w) 0) 0 0.

(** A screenshot that passed the blur gate with its own score. *)
Definition sharpShot (opts : ProcessingOptions) (s : Screenshot) : Prop :=
  minBlurThreshold opts <= blurScore s /\
  blurScore s = calculateBlurScore (dataUrl s).

(** Two frames of the same size that agree on the red, green and blue
    byte of every pixel (they may differ in the alpha bytes). *)
Definition sameColours (f g : ImageData) : Prop :=
  width f = width g /\ height f = height g /\
  length (data f) = length (data g) /\
  forall i : nat, (i mod 4 <> 3)%nat -> nth i (data f) x00 = nth i (data g) x00.

(** ** Scenarios *)

Definition black : list byte := [x00; x00; x00; xff].
Definition white : list byte := [xff; xff; xff; xff].
Definition gray : list byte := [x80; x80; x80; xff].

(** One black, one white pixel. *)
Definition blackDot : ImageData := mkImageData 1 1 black.
Definition whiteDot : ImageData := mkImageData 1 1 white.

(** Two pixels side by side, one white and one black, in both orders. *)
Definition whiteLeft : ImageData := mkImageData 2 1 (white ++ black).
Definition whiteRight : ImageData := mkImageData 2 1 (black ++ white).

(** 4 x 3 frames: a single white pixel on black, and plain gray. *)
Definition sharpFrame : ImageData :=
  mkImageData 4 3
    (black ++ black ++ black ++ black ++
     black ++ white ++ black ++ black ++
     black ++ black ++ black ++ black).
Definition flatFrame : ImageData := mkImageData 4 3 (concat (repeat gray 12)).

(** [sharpFrame] with every alpha byte at 128. *)
Definition fadedBlack : list byte := [x00; x00; x00; x80].
Definition fadedWhite : list byte := [xff; xff; xff; x80].
Definition fadedFrame : ImageData :=
  mkImageData 4 3
    (fadedBlack ++ fadedBlack ++ fadedBlack ++ fadedBlack ++
     fadedBlack ++ fadedWhite ++ fadedBlack ++ fadedBlack ++
     fadedBlack ++ fadedBlack ++ fadedBlack ++ fadedBlack).

(** 33 x 32 frames: all black, and black with a white last column. *)
Definition wideBlack : ImageData :=
  mkImageData 33 32 (concat (repeat (concat (repeat black 33)) 32)).
Definition wideEdge : ImageData :=
  mkImageData 33 32 (concat (repeat (concat (repeat black 32) ++ white) 32)).

(** A video of 1.65 s that shows [sharpFrame] throughout. *)
Definition stillVideo : Video :=
  mkVideo true 4 3 (Finite (165 # 100)) (fun _ => sharpFrame).

(** A video of 10 s that shows [sharpFrame], except for [flatFrame] at the
    first sample of the loop (0.8 s). *)
Definition flashVideo : Video :=
  mkVideo true 4 3 (Finite 10)
    (fun k => match k with 2%nat => flatFrame | _ => sharpFrame end).

Definition defaults : ProcessingOptions := resolveOptions noOptions.

(** Two overlapping boxes and a far one; two detections of one class and
    one of another. *)
Definition leftBox : ML.Box := (0, 0, 2, 2).
Definition shiftedBox : ML.Box := (1, 0, 2, 2).
Definition farBox : ML.Box := (5, 5, 1, 1).

Definition shirt : ML.DetectedObject := ML.mkObject leftBox "shirt" (9 # 10).
Definition shirtMoved : ML.DetectedObject := ML.mkObject shiftedBox "shirt" (8 # 10).
Definition tie : ML.DetectedObject := ML.mkObject farBox "tie" (7 # 10).

(** A world in which the model loads and sees a shirt, joined by a tie
    from the second sample on, in the still video. *)
Definition shirtWorld : ML.World :=
  ML.mkWorld stillVideo true
    (fun k => match k with O => [shirt] | _ => [shirtMoved; tie] end).

(** * Properties *)

(** ** Loops and comparisons *)

Lemma for_loop_rel {S T : Type} (R : S -> T -> Prop) (step : Z)
    (cond : Z -> bool) (body : Z -> S -> S) (body' : Z -> T -> T) :
  (forall i s t, cond i = true -> R s t -> R (body i s) (body' i t)) ->
  forall fuel i s t, R s t ->
    R (for_loop fuel i step cond body s) (for_loop fuel i step cond body' t).
Proof.
  intros Hbody fuel.
  induction fuel as [|fuel IH]; intros i s t Hst; simpl; [assumption|].
  destruct (cond i) eqn:Hc; [|assumption].
  apply IH, Hbody; assumption.
Qed.

Lemma for_loop_inv {S : Type} (P : S -> Prop) (step : Z) (cond : Z -> bool)
    (body : Z -> S -> S) (i0 : Z) :
  (0 <= step)%Z ->
  (forall i s, (i0 <= i)%Z -> cond i = true -> P s -> P (body i s)) ->
  forall fuel i s, (i0 <= i)%Z -> P s -> P (for_loop fuel i step cond body s).
Proof.
  intros Hstep Hbody fuel.
  induction fuel as [|fuel IH]; intros i s Hi Hs; simpl; [assumption|].
  destruct (cond i) eqn:Hc; [|assumption].
  apply IH; [lia|]. apply Hbody; assumption.
Qed.

Lemma Qltb_lt (x y : Q) : Qltb x y = true <-> x < y.
Proof.
  unfold Qltb. rewrite negb_true_iff, <- not_true_iff_false, Qle_bool_iff.
  split; [apply Qnot_le_lt | apply Qlt_not_le].
Qed.

Lemma Qltb_ge (x y : Q) : Qltb x y = false <-> y <= x.
Proof.
  unfold Qltb. rewrite negb_false_iff. apply Qle_bool_iff.
Qed.

Lemma Qgeb_ge (x y : Q) : Qgeb x y = true <-> y <= x.
Proof. apply Qle_bool_iff. Qed.

Lemma Qle_bool_compat (x x' y y' : Q) :
  x == x' -> y == y' -> Qle_bool x y = Qle_bool x' y'.
Proof.
  intros Hx Hy.
  destruct (Qle_bool x y) eqn:H1, (Qle_bool x' y') eqn:H2; try reflexivity.
  - apply Qle_bool_iff in H1. rewrite Hx, Hy in H1.
    apply Qle_bool_iff in H1. congruence.
  - apply Qle_bool_iff in H2. rewrite <- Hx, <- Hy in H2.
    apply Qle_bool_iff in H2. congruence.
Qed.

Lemma Qgtb_compat (x x' y y' : Q) :
  x == x' -> y == y' -> Qgtb x y = Qgtb x' y'.
Proof.
  intros Hx Hy. unfold Qgtb, Qltb. f_equal. apply Qle_bool_compat; assumption.
Qed.

(** ** The difference analyzer *)

Lemma bump_length (i : nat) (hist : list Q) : length (bump i hist) = length hist.
Proof.
  revert i. induction hist as [|c rest IH]; intros [|j]; simpl; auto.
Qed.

Lemma addSample_length (d : list byte) (i : Z) (hist : list Q) :
  length (addSample d i hist) = length hist.
Proof.
  unfold addSample, bumpAt. now rewrite !bump_length.
Qed.

Lemma buildHistograms_length (data1 data2 : list byte) :
  length (fst (buildHistograms data1 data2)) = Z.to_nat (bins * 3) /\
  length (snd (buildHistograms data1 data2)) = Z.to_nat (bins * 3).
Proof.
  unfold buildHistograms.
  apply (for_loop_inv
           (fun s : list Q * list Q =>
              length (fst s) = Z.to_nat (bins * 3) /\
              length (snd s) = Z.to_nat (bins * 3))
           (4 * sampleRate data1) _ _ 0%Z).
  - unfold sampleRate. lia.
  - intros i [h1 h2] _ _ [H1 H2]. simpl in *.
    now rewrite !addSample_length.
  - lia.
  - cbn [fst snd]. now rewrite !repeat_length.
Qed.

Lemma buildHistograms_swap (data1 data2 : list byte) :
  length data1 = length data2 ->
  buildHistograms data2 data1 =
  (snd (buildHistograms data1 data2), fst (buildHistograms data1 data2)).
Proof.
  intros Hlen. unfold buildHistograms, sampleRate. rewrite <- Hlen.
  apply (for_loop_rel (fun (s t : list Q * list Q) => s = (snd t, fst t))).
  - intros i [a b] [c d] _ Hst. simpl in *. congruence.
  - reflexivity.
Qed.

Lemma compareBin_swap (s t : Q * Q) (h1 h2 : Q) :
  sameQQ s t -> sameQQ (compareBin s (h1, h2)) (compareBin t (h2, h1)).
Proof.
  destruct s as [i c], t as [i' c']. intros [Hi Hc]. simpl in *.
  split; simpl.
  - rewrite Hi, Q.min_comm. reflexivity.
  - rewrite (Qgtb_compat (h1 + h2) (h2 + h1) 0 0) by (ring || reflexivity).
    destruct (Qgtb (h2 + h1) 0); [|assumption].
    rewrite Hc. apply Qplus_comp; [reflexivity|].
    apply Qdiv_comp; ring.
Qed.

Lemma compareBins_swap (hist1 hist2 : list Q) :
  forall s t, sameQQ s t ->
    sameQQ (fold_left compareBin (combine hist1 hist2) s)
           (fold_left compareBin (combine hist2 hist1) t).
Proof.
  revert hist2.
  induction hist1 as [|h1 r1 IH]; intros [|h2 r2] s t Hst; simpl; try assumption.
  apply IH, compareBin_swap, Hst.
Qed.

Lemma compareHistograms_sym (hist1 hist2 : list Q) :
  length hist1 = length hist2 ->
  compareHistograms hist1 hist2 == compareHistograms hist2 hist1.
Proof.
  intros Hlen. unfold compareHistograms.
  assert (H := compareBins_swap hist1 hist2 (0, 0) (0, 0)
                 (conj (Qeq_refl 0) (Qeq_refl 0))).
  destruct (fold_left compareBin (combine hist1 hist2) (0, 0)) as [i c].
  destruct (fold_left compareBin (combine hist2 hist1) (0, 0)) as [i' c'].
  destruct H as [Hi Hc]. simpl in Hi, Hc.
  rewrite Hlen, Hi, Hc. reflexivity.
Qed.

Lemma normalize_length (total : Z) (hist : list Q) :
  length (normalize total hist) = length hist.
Proof.
  unfold normalize. destruct (0 <? total)%Z; [apply length_map | reflexivity].
Qed.

Lemma wellFormed_same_length (frame1 frame2 : ImageData) :
  wellFormed frame1 -> wellFormed frame2 ->
  width frame1 = width frame2 -> height frame1 = height frame2 ->
  length (data frame1) = length (data frame2).
Proof.
  intros (_ & _ & H1) (_ & _ & H2) Hw Hh.
  apply Nat2Z.inj. rewrite H1, H2, Hw, Hh. reflexivity.
Qed.

Lemma calculateHistogramDifference_sym (frame1 frame2 : ImageData) :
  length (data frame1) = length (data frame2) ->
  calculateHistogramDifference frame1 frame2 ==
  calculateHistogramDifference frame2 frame1.
Proof.
  intros Hlen. unfold calculateHistogramDifference.
  rewrite (Z.eqb_sym (width frame2)), (Z.eqb_sym (height frame2)).
  destruct (negb (width frame1 =? width frame2)%Z
            || negb (height frame1 =? height frame2)%Z); [reflexivity|].
  rewrite (buildHistograms_swap (data frame1) (data frame2) Hlen).
  destruct (buildHistograms_length (data frame1) (data frame2)) as [L1 L2].
  destruct (buildHistograms (data frame1) (data frame2)) as [h1 h2].
  simpl in *. unfold sampleRate. rewrite <- Hlen.
  apply compareHistograms_sym. now rewrite !normalize_length, L1, L2.
Qed.

Lemma pixelDiff_sym (frame1 frame2 : ImageData) (idx : Z) :
  pixelDiff frame1 frame2 idx == pixelDiff frame2 frame1 idx.
Proof.
  unfold pixelDiff.
  rewrite (Qabs_Qminus (at_ (data frame1) idx)),
          (Qabs_Qminus (at_ (data frame1) (idx + 1))),
          (Qabs_Qminus (at_ (data frame1) (idx + 2))).
  reflexivity.
Qed.

Lemma compareBlock_sym (frame1 frame2 : ImageData) (bx by_ : Z) :
  width frame1 = width frame2 -> height frame1 = height frame2 ->
  sameQZ (compareBlock frame1 frame2 bx by_) (compareBlock frame2 frame1 bx by_).
Proof.
  intros Hw Hh. unfold compareBlock. rewrite <- Hw, <- Hh.
  apply (for_loop_rel sameQZ); [|split; reflexivity].
  intros py s t _ Hst.
  apply (for_loop_rel sameQZ); [|assumption].
  intros px [d n] [d' n'] _ [Hd Hn]. simpl in *.
  split; simpl; [|congruence].
  rewrite Hd, pixelDiff_sym. reflexivity.
Qed.

Lemma calculateStructuralDifference_sym (frame1 frame2 : ImageData) :
  width frame1 = width frame2 -> height frame1 = height frame2 ->
  calculateStructuralDifference frame1 frame2 ==
  calculateStructuralDifference frame2 frame1.
Proof.
  intros Hw Hh. unfold calculateStructuralDifference. rewrite <- Hw, <- Hh.
  match goal with
  | |- (let '(_, _) := ?l in _) == (let '(_, _) := ?r in _) =>
      assert (H : sameQZ l r); [|destruct l as [d n], r as [d' n']]
  end.
  - apply (for_loop_rel sameQZ); [|split; reflexivity].
    intros by_ s t _ Hst.
    apply (for_loop_rel sameQZ); [|assumption].
    intros bx [d n] [d' n'] _ [Hd Hn]. simpl in *. subst n'.
    destruct (compareBlock_sym frame1 frame2 bx by_ Hw Hh) as [Hb Hc].
    destruct (compareBlock frame1 frame2 bx by_) as [bd pc].
    destruct (compareBlock frame2 frame1 bx by_) as [bd' pc'].
    simpl in *. subst pc'.
    destruct (0 <? pc)%Z; split; simpl; try reflexivity; try assumption.
    now rewrite Hd, Hb.
  - destruct H as [Hd Hn]. simpl in *. subst n'.
    destruct (0 <? n)%Z; [now rewrite Hd | reflexivity].
Qed.

Lemma pixelComparison_sym (frame1 frame2 : ImageData) :
  length (data frame1) = length (data frame2) ->
  pixelComparison frame1 frame2 == pixelComparison frame2 frame1.
Proof.
  intros Hlen. unfold pixelComparison. rewrite <- Hlen.
  match goal with
  | |- (let '(_, _) := ?l in _) == (let '(_, _) := ?r in _) =>
      assert (H : sameQZ l r); [|destruct l as [d n], r as [d' n']]
  end.
  - apply (for_loop_rel sameQZ); [|split; reflexivity].
    intros i [d n] [d' n'] _ [Hd Hn]. cbn [fst snd] in *. subst n'.
    split; cbn [fst snd]; [|reflexivity].
    rewrite Hd, (Qabs_Qminus (at_ (data frame1) i)),
      (Qabs_Qminus (at_ (data frame1) (i + 1))),
      (Qabs_Qminus (at_ (data frame1) (i + 2))).
    reflexivity.
  - destruct H as [Hd Hn]. simpl in *. subst n'.
    destruct (0 <? n)%Z; [now rewrite Hd | reflexivity].
Qed.

(** *** A frame against itself *)

Lemma for_loop_count {S : Type} (P : Z -> S -> Prop) (i0 step : Z)
    (cond : Z -> bool) (body : Z -> S -> S) :
  (forall k s, (0 <= k)%Z -> cond (i0 + k * step)%Z = true -> P k s ->
               P (k + 1)%Z (body (i0 + k * step)%Z s)) ->
  forall fuel k s, (0 <= k)%Z -> P k s ->
    exists k', (k <= k')%Z /\
      P k' (for_loop fuel (i0 + k * step)%Z step cond body s) /\
      (cond (i0 + k' * step)%Z = false \/ k' = (k + Z.of_nat fuel)%Z).
Proof.
  intros Hbody fuel.
  induction fuel as [|fuel IH]; intros k s Hk Hs.
  - exists k. repeat split; [lia | assumption | right; simpl; lia].
  - cbn [for_loop]. destruct (cond (i0 + k * step)%Z) eqn:Hc.
    + replace (i0 + k * step + step)%Z with (i0 + (k + 1) * step)%Z by ring.
      destruct (IH (k + 1)%Z (body (i0 + k * step)%Z s)) as (k' & Hle & HP & Hex);
        [lia | now apply Hbody |].
      exists k'. repeat split; [lia | assumption |].
      destruct Hex as [Hex|Hex]; [now left | right; lia].
    + exists k. repeat split; [lia | assumption | now left].
Qed.

Lemma bump_total (i : nat) (hist : list Q) :
  (i < length hist)%nat -> binTotal (bump i hist) == binTotal hist + 1.
Proof.
  revert i. induction hist as [|c rest IH]; intros i Hi; simpl in Hi; [lia|].
  destruct i as [|j]; simpl.
  - ring.
  - rewrite IH by lia. ring.
Qed.

Lemma at_nonneg (d : list byte) (i : Z) : 0 <= at_ d i.
Proof.
  unfold at_. change 0 with (inject_Z 0). rewrite <- Zle_Qle. apply N2Z.is_nonneg.
Qed.

Lemma binOf_range (v : Q) : 0 <= v -> (0 <= binOf v <= bins - 1)%Z.
Proof.
  intros Hv. unfold binOf.
  assert (H : (0 <= Qfloor (v / 255 * inject_Z bins))%Z).
  { change 0%Z with (Qfloor 0). apply Qfloor_resp_le.
    apply Qmult_le_0_compat; [|discriminate].
    unfold Qdiv. apply Qmult_le_0_compat; [assumption | discriminate]. }
  unfold bins in *. lia.
Qed.

Lemma addSample_total (d : list byte) (i : Z) (hist : list Q) :
  length hist = Z.to_nat (bins * 3) ->
  binTotal (addSample d i hist) == binTotal hist + 3.
Proof.
  intros Hlen. unfold addSample, bumpAt.
  assert (Hr := binOf_range _ (at_nonneg d i)).
  assert (Hg := binOf_range _ (at_nonneg d (i + 1))).
  assert (Hb := binOf_range _ (at_nonneg d (i + 2))).
  unfold bins in *.
  rewrite !bump_total; rewrite ?bump_length; try lia.
  ring.
Qed.

Lemma buildHistograms_same (d : list byte) :
  (0 < length d)%nat ->
  exists k hist,
    buildHistograms d d = (hist, hist) /\
    (1 <= k)%Z /\
    (Z.of_nat (length d) <= 4 * sampleRate d * k)%Z /\
    binTotal hist == 3 * inject_Z k.
Proof.
  intros Hpos. unfold buildHistograms.
  assert (Hsr : (1 <= sampleRate d)%Z) by (unfold sampleRate; lia).
  destruct (for_loop_count sampledTwice 0 (4 * sampleRate d)
              (fun i => (i <? Z.of_nat (length d))%Z)
              (fun i '(hist1, hist2) => (addSample d i hist1, addSample d i hist2)))
    with (fuel := length d) (k := 0%Z)
         (s := (repeat 0 (Z.to_nat (bins * 3)), repeat 0 (Z.to_nat (bins * 3))))
    as (k & Hk & (Hsame & Hlen & Hsum) & Hexit).
  - intros k [h1 h2] Hk _ (Hsame & Hlen & Hsum). cbn [fst snd] in *. subst h2.
    repeat split; cbn [fst snd].
    + now rewrite addSample_length.
    + rewrite addSample_total, Hsum, inject_Z_plus by assumption.
      change (inject_Z 1) with 1. ring.
  - lia.
  - repeat split.
  - change (0 + 0 * (4 * sampleRate d))%Z with 0%Z in Hsame, Hlen, Hsum.
    destruct (for_loop (length d) 0 (4 * sampleRate d) _ _ _) as [h1 h2].
    cbn [fst snd] in *. subst h2.
    exists k, h1. split; [reflexivity|].
    destruct Hexit as [Hexit|Hexit].
    + apply Z.ltb_ge in Hexit. repeat split; [nia | lia | assumption].
    + repeat split; [lia | nia | assumption].
Qed.

Lemma compareBins_same (hist : list Q) :
  forall s, sameQQ (fold_left compareBin (combine hist hist) s)
                   (fst s + binTotal hist, snd s).
Proof.
  induction hist as [|x rest IH]; intros [i c]; simpl.
  - split; simpl; [ring | reflexivity].
  - destruct (IH (compareBin (i, c) (x, x))) as [Hi Hc].
    split; [rewrite Hi | rewrite Hc]; simpl.
    + rewrite Q.min_id. ring.
    + destruct (Qgtb (x + x) 0); [|reflexivity].
      unfold Qdiv. ring.
Qed.

Lemma compareHistograms_same (hist : list Q) :
  compareHistograms hist hist == (1 - binTotal hist) * (4 # 10).
Proof.
  unfold compareHistograms.
  destruct (compareBins_same hist (0, 0)) as [Hi Hc].
  destruct (fold_left compareBin (combine hist hist) (0, 0)) as [i c].
  cbn [fst snd] in Hi, Hc.
  assert (Hz : c / inject_Z (Z.of_nat (length hist)) == 0).
  { rewrite Hc. unfold Qdiv. ring. }
  rewrite Q.min_r by (rewrite Hz; discriminate).
  rewrite Hz, Hi. ring.
Qed.

Lemma normalize_total (total : Z) (hist : list Q) :
  (0 < total)%Z ->
  binTotal (normalize total hist) == binTotal hist / inject_Z total.
Proof.
  intros Ht. unfold normalize.
  apply Z.ltb_lt in Ht. rewrite Ht.
  induction hist as [|x rest IH]; simpl.
  - unfold Qdiv. ring.
  - rewrite IH. unfold Qdiv. ring.
Qed.

Lemma calculateHistogramDifference_same (frame : ImageData) :
  wellFormed frame ->
  calculateHistogramDifference frame frame <= - (8 # 10).
Proof.
  intros (Hw & Hh & Hlen). unfold calculateHistogramDifference.
  rewrite !Z.eqb_refl. cbn [negb orb].
  destruct (buildHistograms_same (data frame)) as (k & hist & Hb & Hk & Hexit & Hsum).
  { apply Nat2Z.inj_lt. rewrite Hlen. change (Z.of_nat 0) with 0%Z. nia. }
  rewrite Hb.
  set (total := Qfloor (inject_Z (Z.of_nat (length (data frame)))
                        / inject_Z (4 * sampleRate (data frame)))).
  rewrite compareHistograms_same.
  assert (Hsr : (1 <= sampleRate (data frame))%Z) by (unfold sampleRate; lia).
  assert (H3 : 3 <= binTotal (normalize total hist)).
  { destruct (Z.ltb_spec 0 total) as [Hpos|Hneg].
    - rewrite normalize_total, Hsum by assumption.
      assert (Htk : inject_Z total <= inject_Z k).
      { apply Qle_trans with
          (inject_Z (Z.of_nat (length (data frame)))
           / inject_Z (4 * sampleRate (data frame))).
        - apply Qfloor_le.
        - apply Qle_shift_div_r.
          + change 0 with (inject_Z 0). rewrite <- Zlt_Qlt. lia.
          + rewrite <- inject_Z_mult, <- Zle_Qle. lia. }
      apply Qle_shift_div_l.
      + change 0 with (inject_Z 0). now rewrite <- Zlt_Qlt.
      + lra.
    - unfold normalize. apply Z.ltb_ge in Hneg. rewrite Hneg, Hsum.
      assert (H1 : inject_Z 1 <= inject_Z k) by (rewrite <- Zle_Qle; lia).
      change (inject_Z 1) with 1 in H1. lra. }
  lra.
Qed.

Lemma pixelDiff_same (frame : ImageData) (idx : Z) : pixelDiff frame frame idx == 0.
Proof.
  unfold pixelDiff.
  assert (H : forall x, Qabs (x - x) == 0).
  { intros x. assert (E : x - x == 0) by ring. rewrite E. reflexivity. }
  rewrite !H. reflexivity.
Qed.

Lemma calculateStructuralDifference_same (frame : ImageData) :
  calculateStructuralDifference frame frame == 0.
Proof.
  unfold calculateStructuralDifference.
  match goal with
  | |- (let '(_, _) := ?l in _) == _ =>
      assert (H : fst l == 0); [|destruct l as [d n]]
  end.
  - apply (for_loop_inv (fun s : Q * Z => fst s == 0) 1 _ _ 0%Z);
      [lia| |lia|reflexivity].
    intros by_ s _ _ Hs.
    apply (for_loop_inv (fun s : Q * Z => fst s == 0) 1 _ _ 0%Z);
      [lia| |lia|assumption].
    intros bx [d n] _ _ Hd. cbn [fst] in Hd.
    assert (Hblock : fst (compareBlock frame frame bx by_) == 0).
    { unfold compareBlock.
      apply (for_loop_inv (fun s : Q * Z => fst s == 0) 1 _ _ 0%Z);
        [lia| |lia|reflexivity].
      intros py s' _ _ Hs'.
      apply (for_loop_inv (fun s : Q * Z => fst s == 0) 1 _ _ 0%Z);
        [lia| |lia|assumption].
      intros px [bd pc] _ _ Hbd. cbn [fst] in *.
      rewrite Hbd, pixelDiff_same. reflexivity. }
    destruct (compareBlock frame frame bx by_) as [bd pc]. cbn [fst] in Hblock.
    destruct (0 <? pc)%Z; cbn [fst]; [|assumption].
    rewrite Hd, Hblock. unfold Qdiv. ring.
  - cbn [fst] in H. destruct (0 <? n)%Z; [|reflexivity].
    rewrite H. unfold Qdiv. ring.
Qed.

(** The difference of any frame with itself is at most -0.24, hence never
    0 and never inside [0, 1]: the three channel histograms are summed into
    one intersection, which is at least 3 for equal histograms. *)
Lemma calculateFrameDifference_same (frame : ImageData) :
  wellFormed frame ->
  calculateFrameDifference frame frame true <= - (6 # 25).
Proof.
  intros W. unfold calculateFrameDifference.
  rewrite !Z.eqb_refl. cbn [negb orb].
  assert (H := calculateHistogramDifference_same frame W).
  rewrite calculateStructuralDifference_same. lra.
Qed.

(** X4.  A frame narrower or lower than one block has no block at all, and its
    structural difference from any frame is 0. *)
Lemma calculateStructuralDifference_small (frame1 frame2 : ImageData) :
  (width frame1 < blockSize)%Z \/ (height frame1 < blockSize)%Z ->
  calculateStructuralDifference frame1 frame2 = 0.
Proof.
  intros Hsmall. unfold calculateStructuralDifference.
  match goal with
  | |- (let '(_, _) := ?l in _) = _ => assert (H : l = (0, 0%Z)); [|now rewrite H]
  end.
  apply (for_loop_inv (fun s : Q * Z => s = (0, 0%Z)) 1 _ _ 0%Z);
    [lia| |lia|reflexivity].
  intros by_ s Hby Hcy Hs.
  apply (for_loop_inv (fun s : Q * Z => s = (0, 0%Z)) 1 _ _ 0%Z);
    [lia| |lia|assumption].
  intros bx s' Hbx Hcx _.
  apply Z.ltb_lt in Hcy, Hcx. unfold blockSize in *.
  destruct Hsmall as [H|H].
  - assert (width frame1 / 32 <= 0)%Z by (apply Z.lt_succ_r, Z.div_lt_upper_bound; lia).
    lia.
  - assert (height frame1 / 32 <= 0)%Z by (apply Z.lt_succ_r, Z.div_lt_upper_bound; lia).
    lia.
Qed.

(** Every pixel read of a well-formed frame is inside its buffer. *)
Lemma pixel_index_in_range (f : ImageData) (x y : Z) :
  wellFormed f -> (0 <= x < width f)%Z -> (0 <= y < height f)%Z ->
  (Z.to_nat ((y * width f + x) * 4 + 2) < length (data f))%nat.
Proof.
  intros (Hw & Hh & Hlen) Hx Hy. apply Nat2Z.inj_lt.
  rewrite Hlen, Z2Nat.id by nia. nia.
Qed.

(** So is every sample of the histogram and of the pixel comparison. *)
Lemma sample_index_in_range (f : ImageData) (k : Z) :
  wellFormed f -> (0 <= k)%Z -> (4 * k < Z.of_nat (length (data f)))%Z ->
  (Z.to_nat (4 * k + 2) < length (data f))%nat.
Proof.
  intros (Hw & Hh & Hlen) Hk Hi. apply Nat2Z.inj_lt.
  rewrite Z2Nat.id by lia. rewrite Hlen in *. nia.
Qed.

(** C6.  The frame difference is symmetric: for all frames (as the browser
    produces them) [calculateFrameDifference a b] and
    [calculateFrameDifference b a] are the same number, with either value
    of [useHistogram]. *)
Theorem calculateFrameDifference_symmetric (frame1 frame2 : ImageData)
    (useHistogram : bool) :
  wellFormed frame1 -> wellFormed frame2 ->
  calculateFrameDifference frame1 frame2 useHistogram ==
  calculateFrameDifference frame2 frame1 useHistogram.
Proof.
  intros W1 W2. unfold calculateFrameDifference.
  rewrite (Z.eqb_sym (width frame2)), (Z.eqb_sym (height frame2)).
  destruct (width frame1 =? width frame2)%Z eqn:Hw; [|reflexivity].
  destruct (height frame1 =? height frame2)%Z eqn:Hh; [|reflexivity].
  apply Z.eqb_eq in Hw, Hh. cbn [negb orb].
  assert (Hlen := wellFormed_same_length _ _ W1 W2 Hw Hh).
  destruct useHistogram.
  - rewrite (calculateHistogramDifference_sym _ _ Hlen),
      (calculateStructuralDifference_sym _ _ Hw Hh).
    reflexivity.
  - apply pixelComparison_sym, Hlen.
Qed.

(** C7.  When the widths or the heights of the two frames differ, the
    frame difference (and its histogram component) is exactly 1; being
    total functions, they return it without failing. *)
Theorem calculateFrameDifference_dimension_mismatch (frame1 frame2 : ImageData)
    (useHistogram : bool) :
  width frame1 <> width frame2 \/ height frame1 <> height frame2 ->
  calculateFrameDifference frame1 frame2 useHistogram = 1 /\
  calculateHistogramDifference frame1 frame2 = 1.
Proof.
  intros H.
  assert (Hg : negb (width frame1 =? width frame2)%Z
               || negb (height frame1 =? height frame2)%Z = true).
  { apply orb_true_iff.
    destruct H as [H|H]; [left|right];
      now apply negb_true_iff, Z.eqb_neq. }
  unfold calculateFrameDifference, calculateHistogramDifference.
  now rewrite Hg.
Qed.

(** ** The sharpness scorer *)

Lemma fold_squares_nonneg (mean : Q) (xs : list Q) :
  forall acc, 0 <= acc ->
    0 <= fold_left (fun sum val => sum + (val - mean) ^ 2) xs acc.
Proof.
  induction xs as [|x xs IH]; intros acc Hacc; simpl; [assumption|].
  apply IH.
  assert (H := Qsqr_nonneg (x - mean)). simpl in H. lra.
Qed.

Lemma varianceOf_nonneg (xs : list Q) : 0 <= varianceOf xs.
Proof.
  unfold varianceOf, Qdiv.
  apply Qmult_le_0_compat.
  - apply fold_squares_nonneg. lra.
  - apply Qinv_le_0_compat.
    change 0 with (inject_Z 0). rewrite <- Zle_Qle. lia.
Qed.

Lemma sumOf_zeros (xs : list Q) :
  Forall (fun v => v == 0) xs -> forall acc, acc == 0 -> fold_left Qplus xs acc == 0.
Proof.
  induction 1 as [|x xs Hx _ IH]; intros acc Hacc; simpl; [assumption|].
  apply IH. rewrite Hacc, Hx. reflexivity.
Qed.

Lemma fold_squares_zeros (mean : Q) (xs : list Q) :
  mean == 0 -> Forall (fun v => v == 0) xs ->
  forall acc, acc == 0 ->
    fold_left (fun sum val => sum + (val - mean) ^ 2) xs acc == 0.
Proof.
  intros Hm. induction 1 as [|x xs Hx _ IH]; intros acc Hacc; simpl; [assumption|].
  apply IH. rewrite Hacc, Hx, Hm. reflexivity.
Qed.

Lemma varianceOf_zeros (xs : list Q) :
  Forall (fun v => v == 0) xs -> varianceOf xs == 0.
Proof.
  intros H. unfold varianceOf.
  assert (Hm : sumOf xs / inject_Z (Z.of_nat (length xs)) == 0).
  { unfold sumOf, Qdiv. rewrite (sumOf_zeros xs H 0) by reflexivity. ring. }
  unfold Qdiv at 1.
  rewrite (fold_squares_zeros _ xs Hm H 0) by reflexivity. ring.
Qed.

Lemma laplacianOf_no_interior (imageData : ImageData) :
  (width imageData <= 2)%Z \/ (height imageData <= 2)%Z ->
  laplacianOf imageData = [].
Proof.
  intros Hsmall. unfold laplacianOf.
  apply (for_loop_inv (fun acc : list Q => acc = []) 1 _ _ 1%Z);
    [lia| |lia|reflexivity].
  intros y acc Hy Hcy Hacc.
  apply (for_loop_inv (fun acc : list Q => acc = []) 1 _ _ 1%Z);
    [lia| |lia|assumption].
  intros x acc' Hx Hcx _.
  apply Z.ltb_lt in Hcy, Hcx. lia.
Qed.

Lemma getGray_uniform (imageData : ImageData) (r g b : Q) (x y dx dy : Z) :
  uniformColor imageData r g b ->
  (0 <= x + dx < width imageData)%Z -> (0 <= y + dy < height imageData)%Z ->
  getGray imageData x y dx dy
  = r * (299 # 1000) + g * (587 # 1000) + b * (114 # 1000).
Proof.
  intros Hu Hx Hy. unfold getGray.
  destruct (Hu ((y + dy) * width imageData + (x + dx))%Z) as (Hr & Hg & Hb);
    [nia|].
  rewrite Hr, Hg, Hb. reflexivity.
Qed.

Lemma laplacianOf_uniform (imageData : ImageData) (r g b : Q) :
  uniformColor imageData r g b ->
  Forall (fun v => v == 0) (laplacianOf imageData).
Proof.
  intros Hu. unfold laplacianOf.
  apply (for_loop_inv (Forall (fun v => v == 0)) 1 _ _ 1%Z);
    [lia| |lia|constructor].
  intros y acc Hy Hcy Hacc.
  apply (for_loop_inv (Forall (fun v => v == 0)) 1 _ _ 1%Z);
    [lia| |lia|assumption].
  intros x acc' Hx Hcx Hacc'.
  apply Z.ltb_lt in Hcy, Hcx.
  apply Forall_app. split; [assumption|].
  constructor; [|constructor].
  unfold laplacianValue.
  rewrite !(getGray_uniform imageData r g b) by (assumption || lia).
  set (c := r * (299 # 1000) + g * (587 # 1000) + b * (114 # 1000)).
  assert (E : 4 * c - c - c - c - c == 0) by ring.
  rewrite E. reflexivity.
Qed.

(** C8.  The sharpness score of every frame is a non-negative number
    (the scorer is a total function); it is exactly 0 when the frame has
    no interior pixel (width or height at most 2), and it is 0 for a frame
    of one uniform colour. *)
Theorem calculateBlurScore_nonneg_and_zero_cases (imageData : ImageData) :
  0 <= calculateBlurScore imageData /\
  ((width imageData <= 2)%Z \/ (height imageData <= 2)%Z ->
   calculateBlurScore imageData = 0) /\
  (forall r g b, uniformColor imageData r g b ->
   calculateBlurScore imageData == 0).
Proof.
  unfold calculateBlurScore. repeat split.
  - destruct (laplacianOf imageData); [lra | apply varianceOf_nonneg].
  - intros H. now rewrite (laplacianOf_no_interior imageData H).
  - intros r g b Hu. assert (H := laplacianOf_uniform imageData r g b Hu).
    destruct (laplacianOf imageData); [reflexivity | apply varianceOf_zeros, H].
Qed.

(** ** The key-frame engine *)

Section EngineFacts.

Variable video : Video.
Variable opts : ProcessingOptions.

Lemma collectStable_pending (changeAt : option Q) (stable : list StableFrame)
    (now : Q) (currentFrame : ImageData) (difference : Q) :
  isSet changeAt = true ->
  collectStable opts changeAt stable now currentFrame difference = stable.
Proof.
  intros H. unfold collectStable. rewrite H.
  now rewrite andb_false_r.
Qed.

Lemma detectChange_keeps (changeAt : option Q) (stable : list StableFrame)
    (now : Q) (significant : bool) :
  noCandidateWhilePending changeAt stable ->
  noCandidateWhilePending (fst (detectChange changeAt stable now significant))
                          (snd (detectChange changeAt stable now significant)).
Proof.
  unfold detectChange, noCandidateWhilePending. intros H.
  destruct (significant && negb (isSet changeAt)); simpl; auto.
Qed.

Lemma bootstrap_idle :
  changeDetectedAt (bootstrap video opts) = None /\
  stableFrames (bootstrap video opts) = [].
Proof.
  unfold bootstrap, captureFrame. destruct (hasContext video); simpl; auto.
Qed.

Lemma iteration_keeps (e : Engine) :
  noCandidateWhilePending (changeDetectedAt e) (stableFrames e) ->
  noCandidateWhilePending (changeDetectedAt (iteration video opts e))
                          (stableFrames (iteration video opts e)).
Proof.
  intros Inv. unfold iteration.
  destruct (captureFrame video (captures e)) as [currentFrame|]; [|exact Inv].
  destruct (baselineFrame e) as [baseline|]; [|exact Inv].
  set (difference := calculateFrameDifference baseline currentFrame true).
  set (recent := pushDifference opts (recentDifferences e) difference).
  set (stable := collectStable opts (changeDetectedAt e) (stableFrames e)
                   (currentTime e) currentFrame difference).
  assert (Hs : noCandidateWhilePending (changeDetectedAt e) stable).
  { intros Hset. unfold stable. rewrite collectStable_pending by assumption.
    now apply Inv. }
  assert (Hd := detectChange_keeps (changeDetectedAt e) stable (currentTime e)
                  (isSignificantChange opts recent difference) Hs).
  destruct (detectChange (changeDetectedAt e) stable (currentTime e)
              (isSignificantChange opts recent difference)) as [changeAt stable'].
  destruct (windowElapsed opts changeAt (currentTime e)).
  - destruct (resolveWindow opts e stable' (frameCounter e + 1) currentFrame)
      as [[shots last] baseline'].
    intros Hset. discriminate Hset.
  - exact Hd.
Qed.

Lemma iterations_keep (n : nat) :
  forall e, noCandidateWhilePending (changeDetectedAt e) (stableFrames e) ->
    noCandidateWhilePending (changeDetectedAt (iterations video opts n e))
                            (stableFrames (iterations video opts n e)).
Proof.
  induction n as [|n IH]; intros e Inv; simpl; [assumption|].
  apply IH, iteration_keeps, Inv.
Qed.

Lemma sampling_iterations (fuel : nat) (d : Q) :
  forall e e', sampling video opts fuel d e = Some e' ->
    exists n, e' = iterations video opts n e.
Proof.
  induction fuel as [|fuel IH]; intros e e' H; simpl in H; [discriminate|].
  destruct (Qltb (currentTime e) (d - (1 # 10))).
  - destruct (IH _ _ H) as [n Hn]. exists (Datatypes.S n). exact Hn.
  - exists O. now inversion H.
Qed.

Lemma pendingChange_idle (e : Engine) :
  noCandidateWhilePending (changeDetectedAt e) (stableFrames e) ->
  pendingChange opts e = e.
Proof.
  intros Inv. unfold pendingChange.
  destruct (isSet (changeDetectedAt e)) eqn:Hset; [|reflexivity].
  now rewrite (Inv Hset).
Qed.

(** Screenshots are only ever appended. *)
Lemma resolveWindow_appends (e : Engine) (stable : list StableFrame)
    (frameNumber' : Z) (currentFrame : ImageData) :
  exists more,
    fst (fst (resolveWindow opts e stable frameNumber' currentFrame))
    = screenshots e ++ more.
Proof.
  unfold resolveWindow.
  repeat match goal with
         | |- context [if ?c then _ else _] => destruct c
         | |- context [match sortBy ?c ?l with _ => _ end] => destruct (sortBy c l)
         end; cbn [fst];
    solve [eexists; reflexivity | exists []; now rewrite app_nil_r].
Qed.

Lemma iteration_appends (e : Engine) :
  exists more, screenshots (iteration video opts e) = screenshots e ++ more.
Proof.
  unfold iteration.
  destruct (captureFrame video (captures e)) as [currentFrame|];
    [|exists []; now rewrite app_nil_r].
  destruct (baselineFrame e) as [baseline|];
    [|exists []; now rewrite app_nil_r].
  destruct (detectChange _ _ _ _) as [changeAt stable'].
  destruct (windowElapsed opts changeAt (currentTime e)).
  - destruct (resolveWindow_appends e stable' (frameCounter e + 1) currentFrame)
      as [more Hmore].
    destruct (resolveWindow opts e stable' (frameCounter e + 1) currentFrame)
      as [[shots last] baseline'].
    exists more. exact Hmore.
  - exists []. now rewrite app_nil_r.
Qed.

Lemma iterations_append (n : nat) :
  forall e, exists more,
    screenshots (iterations video opts n e) = screenshots e ++ more.
Proof.
  induction n as [|n IH]; intros e; simpl.
  - exists []. now rewrite app_nil_r.
  - destruct (IH (iteration video opts e)) as [m1 H1].
    destruct (iteration_appends e) as [m2 H2].
    exists (m2 ++ m1). now rewrite H1, H2, app_assoc.
Qed.

Lemma finalFrame_appends (d : Q) (e : Engine) :
  exists more, finalFrame video opts d e = screenshots e ++ more.
Proof.
  unfold finalFrame.
  destruct (captureFrame video (captures e)) as [final|];
    [|exists []; now rewrite app_nil_r].
  destruct (rev (screenshots e));
    match goal with
    | |- context [if ?c then _ else _] => destruct c
    end;
    solve [eexists; reflexivity | exists []; now rewrite app_nil_r].
Qed.

(** Every iteration moves the sample clock by one of the two steps. *)
Lemma iteration_advances (e : Engine) :
  currentTime (iteration video opts e) = currentTime e + sampleInterval opts \/
  currentTime (iteration video opts e)
  = currentTime e + minScreenshotInterval opts * (5 # 10).
Proof.
  unfold iteration.
  destruct (captureFrame video (captures e)) as [currentFrame|]; [|now left].
  destruct (baselineFrame e) as [baseline|]; [|now left].
  destruct (detectChange _ _ _ _) as [changeAt stable'].
  destruct (windowElapsed opts changeAt (currentTime e)).
  - destruct (resolveWindow opts e stable' (frameCounter e + 1) currentFrame)
      as [[shots last] baseline'].
    now right.
  - now left.
Qed.

(** With positive steps the loop is left after finitely many iterations. *)
Lemma sampling_terminates (d step : Q) :
  0 < step -> step <= sampleInterval opts ->
  step <= minScreenshotInterval opts * (5 # 10) ->
  forall n e,
    d - (1 # 10) - currentTime e <= inject_Z (Z.of_nat n) * step ->
    exists e', sampling video opts (Datatypes.S n) d e = Some e'.
Proof.
  intros Hpos Hs Hm n.
  induction n as [|n IH]; intros e Hrem; cbn [sampling].
  - destruct (Qltb (currentTime e) (d - (1 # 10))) eqn:Hc; [|eauto].
    apply Qltb_lt in Hc. change (inject_Z (Z.of_nat 0)) with 0 in Hrem. lra.
  - destruct (Qltb (currentTime e) (d - (1 # 10))) eqn:Hc; [|eauto].
    apply IH.
    rewrite Nat2Z.inj_succ, <- Z.add_1_r, inject_Z_plus in Hrem.
    change (inject_Z 1) with 1 in Hrem.
    destruct (iteration_advances e) as [H|H]; rewrite H; lra.
Qed.

Lemma sampling_terminates_eventually (d : Q) (e : Engine) :
  0 < sampleInterval opts -> 0 < minScreenshotInterval opts ->
  exists fuel e', sampling video opts fuel d e = Some e'.
Proof.
  intros Hs Hm.
  set (step := Qmin (sampleInterval opts) (minScreenshotInterval opts * (5 # 10))).
  assert (Hpos : 0 < step).
  { unfold step. apply Q.min_glb_lt; lra. }
  set (n := Z.to_nat (Qceiling ((d - (1 # 10) - currentTime e) / step))).
  exists (Datatypes.S n).
  apply (sampling_terminates d step Hpos);
    [apply Q.le_min_l | apply Q.le_min_r |].
  assert (Hc := Qle_ceiling ((d - (1 # 10) - currentTime e) / step)).
  assert (Hn : inject_Z (Qceiling ((d - (1 # 10) - currentTime e) / step))
               <= inject_Z (Z.of_nat n)).
  { rewrite <- Zle_Qle. unfold n. lia. }
  assert (Hdiv : (d - (1 # 10) - currentTime e) / step
                 <= inject_Z (Z.of_nat n)) by lra.
  assert (Hmul := Qmult_le_compat_r _ _ step Hdiv (Qlt_le_weak _ _ Hpos)).
  assert (E : (d - (1 # 10) - currentTime e) / step * step
              == d - (1 # 10) - currentTime e).
  { field. intros Hz. rewrite Hz in Hpos. now apply Qlt_irrefl in Hpos. }
  rewrite E in Hmul. exact Hmul.
Qed.

(** *** The minimum interval inside the sampling loop *)

Lemma lastStamp_snoc (l : list Screenshot) (s : Screenshot) :
  forall prev, lastStamp prev (l ++ [s]) = timestamp s.
Proof.
  induction l as [|a l IH]; intros prev; simpl; [reflexivity | apply IH].
Qed.

Lemma spacedFrom_snoc (gap : Q) (l : list Screenshot) (s : Screenshot) :
  forall prev, spacedFrom gap prev l -> gap <= timestamp s - lastStamp prev l ->
    spacedFrom gap prev (l ++ [s]).
Proof.
  induction l as [|a l IH]; intros prev Hl Hs; simpl in *.
  - split; [assumption | exact I].
  - destruct Hl as [Ha Hl]. split; [assumption | now apply IH].
Qed.

Lemma spaced_snoc (gap prev : Q) (l : list Screenshot) (s : Screenshot) :
  spaced gap l -> (l <> [] -> gap <= timestamp s - lastStamp prev l) ->
  spaced gap (l ++ [s]).
Proof.
  destruct l as [|a l]; simpl; intros Hl Hs; [exact I|].
  apply spacedFrom_snoc; [assumption | apply Hs; discriminate].
Qed.

Lemma bootstrap_intervalKept : intervalKept opts (bootstrap video opts).
Proof.
  unfold intervalKept, bootstrap, captureFrame.
  destruct (hasContext video); simpl; split; solve [exact I | reflexivity | congruence].
Qed.

Lemma resolveWindow_intervalKept (e : Engine) (frameNumber' : Z)
    (currentFrame : ImageData) :
  intervalKept opts e ->
  let '(shots, last, _) := resolveWindow opts e [] frameNumber' currentFrame in
  spaced (minScreenshotInterval opts) shots /\
  (shots <> [] -> lastStamp 0 shots = last).
Proof.
  intros [Hsp Hlast]. unfold resolveWindow. cbn [length Z.of_nat Z.ltb Z.eqb andb].
  change (0 ?= 0)%Z with Eq. cbn match.
  destruct (Qgeb (currentTime e - lastScreenshotTime e) (minScreenshotInterval opts))
    eqn:Hdue; [|split; assumption].
  destruct (Qgeb (calculateBlurScore currentFrame) (minBlurThreshold opts));
    [|split; assumption].
  apply Qgeb_ge in Hdue. split.
  - apply (spaced_snoc _ 0); [assumption|].
    intros Hne. rewrite (Hlast Hne). exact Hdue.
  - intros _. apply lastStamp_snoc.
Qed.

Lemma iteration_intervalKept (e : Engine) :
  noCandidateWhilePending (changeDetectedAt e) (stableFrames e) ->
  intervalKept opts e -> intervalKept opts (iteration video opts e).
Proof.
  intros Inv K. unfold iteration.
  destruct (captureFrame video (captures e)) as [currentFrame|]; [|exact K].
  destruct (baselineFrame e) as [baseline|]; [|exact K].
  set (difference := calculateFrameDifference baseline currentFrame true).
  set (recent := pushDifference opts (recentDifferences e) difference).
  set (stable := collectStable opts (changeDetectedAt e) (stableFrames e)
                   (currentTime e) currentFrame difference).
  assert (Hs : noCandidateWhilePending (changeDetectedAt e) stable).
  { intros Hset. unfold stable. rewrite collectStable_pending by assumption.
    now apply Inv. }
  assert (Hd := detectChange_keeps (changeDetectedAt e) stable (currentTime e)
                  (isSignificantChange opts recent difference) Hs).
  destruct (detectChange (changeDetectedAt e) stable (currentTime e)
              (isSignificantChange opts recent difference)) as [changeAt stable'].
  cbn [fst snd] in Hd.
  destruct (windowElapsed opts changeAt (currentTime e)) eqn:Hw; [|exact K].
  assert (Hset : isSet changeAt = true).
  { unfold windowElapsed in Hw. destruct changeAt as [t|]; [|discriminate].
    apply andb_true_iff in Hw. exact (proj1 Hw). }
  rewrite (Hd Hset).
  assert (H := resolveWindow_intervalKept e (frameCounter e + 1) currentFrame K).
  destruct (resolveWindow opts e [] (frameCounter e + 1) currentFrame)
    as [[shots last] baseline'].
  exact H.
Qed.

(** X12.  After any number of iterations of the sampling loop the emitted
    screenshots are pairwise at least [minScreenshotInterval] apart: the
    loop keeps the interval that the final frame can break. *)
Lemma sampling_loop_keeps_interval (n : nat) :
  spaced (minScreenshotInterval opts)
    (screenshots (iterations video opts n (bootstrap video opts))).
Proof.
  assert (H : forall n e,
             noCandidateWhilePending (changeDetectedAt e) (stableFrames e) ->
             intervalKept opts e ->
             intervalKept opts (iterations video opts n e)).
  { clear n. induction n as [|n IH]; intros e Inv K; simpl; [assumption|].
    apply IH; [apply iteration_keeps | apply iteration_intervalKept]; assumption. }
  apply H; [|apply bootstrap_intervalKept].
  destruct bootstrap_idle as [Hc _]. rewrite Hc. intros Hset. discriminate Hset.
Qed.

End EngineFacts.

Lemma pending_change_idle_aux (video : Video) (opts : ProcessingOptions) :
  (forall n,
     let e := iterations video opts n (bootstrap video opts) in
     noCandidateWhilePending (changeDetectedAt e) (stableFrames e) /\
     pendingChange opts e = e) /\
  (forall fuel d e,
     sampling video opts fuel d (bootstrap video opts) = Some e ->
     pendingChange opts e = e).
Proof.
  assert (Hall : forall n,
             noCandidateWhilePending
               (changeDetectedAt (iterations video opts n (bootstrap video opts)))
               (stableFrames (iterations video opts n (bootstrap video opts)))).
  { intros n. apply iterations_keep.
    destruct (bootstrap_idle video opts) as [Hc _].
    rewrite Hc. intros H. discriminate H. }
  split.
  - intros n. split; [apply Hall | apply pendingChange_idle, Hall].
  - intros fuel d e H.
    destruct (sampling_iterations video opts fuel d _ _ H) as [n ->].
    apply pendingChange_idle, Hall.
Qed.

(** C10.  In every state that a run reaches - after any number of
    iterations of the sampling loop - the candidate set [stableFrames] is
    empty whenever [changeDetectedAt] is set: the collection step adds
    nothing while a change is pending, and detecting a change empties the
    set.  Hence the block for a pending change at the end of the stream
    changes nothing and emits no screenshot. *)
Theorem pending_change_never_emits (video : Video) (opts : ProcessingOptions) :
  (forall n,
     let e := iterations video opts n (bootstrap video opts) in
     (isSet (changeDetectedAt e) = true -> stableFrames e = []) /\
     pendingChange opts e = e) /\
  (forall changeAt stable now currentFrame difference,
     isSet changeAt = true ->
     collectStable opts changeAt stable now currentFrame difference = stable) /\
  (forall changeAt stable now,
     isSet changeAt = false ->
     detectChange changeAt stable now true = (Some now, [])) /\
  (forall fuel d e,
     sampling video opts fuel d (bootstrap video opts) = Some e ->
     pendingChange opts e = e).
Proof.
  destruct (pending_change_idle_aux video opts) as [Hiter Hend].
  repeat split.
  - apply (Hiter n).
  - apply (Hiter n).
  - intros. now apply collectStable_pending.
  - intros changeAt stable now H. unfold detectChange. now rewrite H.
  - apply Hend.
Qed.

Lemma bootstrap_emits (video : Video) (opts : ProcessingOptions) :
  hasContext video = true ->
  screenshots (bootstrap video opts) = [screenshot0 video opts] /\
  baselineFrame (bootstrap video opts) = Some (drawn video 1) /\
  lastScreenshotTime (bootstrap video opts) = (1 # 10) + stabilityWindow opts.
Proof.
  intros H. unfold bootstrap, captureFrame. rewrite H. simpl. auto.
Qed.

(** C9.  In a run that has its canvas context (so that frames are
    captured), the second captured frame is emitted as the first
    screenshot, with time stamp [0.1 + stabilityWindow], whatever its blur
    score and whatever [minBlurThreshold]; it becomes the baseline.  It
    stays the first screenshot after any number of iterations and in the
    returned list, and with positive [sampleInterval] and
    [minScreenshotInterval] the run does return. *)
Theorem first_screenshot_always_emitted (video : Video) (options : PartialOptions) :
  hasContext video = true ->
  let opts := resolveOptions options in
  let first := screenshot0 video opts in
  screenshots (bootstrap video opts) = [first] /\
  baselineFrame (bootstrap video opts) = Some (dataUrl first) /\
  timestamp first = (1 # 10) + stabilityWindow opts /\
  (forall n, exists rest,
     screenshots (iterations video opts n (bootstrap video opts)) = first :: rest) /\
  (forall fuel shots,
     processVideo fuel video options = Some (Returned shots) ->
     exists rest, shots = first :: rest) /\
  (videoWidth video <> 0%Z -> videoHeight video <> 0%Z ->
   forall d, duration video = Finite d -> ~ d == 0 ->
   0 < sampleInterval opts -> 0 < minScreenshotInterval opts ->
   exists fuel rest, processVideo fuel video options = Some (Returned (first :: rest))).
Proof.
  intros Hctx opts first.
  destruct (bootstrap_emits video opts Hctx) as (Hs & Hb & _).
  assert (Hiter : forall n, exists rest,
             screenshots (iterations video opts n (bootstrap video opts))
             = first :: rest).
  { intros n. destruct (iterations_append video opts n (bootstrap video opts))
      as [more Hmore].
    exists more. rewrite Hmore, Hs. reflexivity. }
  assert (Hend : forall d e,
             (exists n, e = iterations video opts n (bootstrap video opts)) ->
             exists rest, finalFrame video opts d (pendingChange opts e)
                          = first :: rest).
  { intros d e [n ->].
    rewrite (proj2 (proj1 (pending_change_idle_aux video opts) n)).
    destruct (Hiter n) as [rest Hrest].
    destruct (finalFrame_appends video opts d
                (iterations video opts n (bootstrap video opts))) as [more Hmore].
    exists (rest ++ more). rewrite Hmore, Hrest. reflexivity. }
  repeat split; try assumption.
  - intros fuel shots. unfold processVideo. fold opts. rewrite Hctx. cbn [negb].
    destruct ((videoWidth video =? 0)%Z || (videoHeight video =? 0)%Z);
      [discriminate|].
    destruct (duration video) as [d|]; [|discriminate].
    destruct (Qeq_bool d 0); [discriminate|].
    destruct (sampling video opts fuel d (bootstrap video opts)) as [e|] eqn:He;
      [|discriminate].
    intros H. inversion H; subst shots.
    apply Hend. eapply sampling_iterations, He.
  - intros Hw Hh d Hd Hnz Hsi Hmi.
    destruct (sampling_terminates_eventually video opts d (bootstrap video opts)
                Hsi Hmi) as (fuel & e & He).
    destruct (Hend d e (sampling_iterations video opts fuel d _ _ He))
      as [rest Hrest].
    exists fuel, rest. unfold processVideo. fold opts. rewrite Hctx, Hd. cbn [negb].
    apply Z.eqb_neq in Hw, Hh. rewrite Hw, Hh. cbn [orb].
    destruct (Qeq_bool d 0) eqn:Hz; [apply Qeq_bool_iff in Hz; contradiction|].
    rewrite He, Hrest. reflexivity.
Qed.

(** ** Scenarios *)

(** C1.  A change window is open (detected at 0.8 s on the gray frame,
    [stabilityWindow] not yet elapsed at 1.0 s), the frame sampled at 1.0 s
    is stable (difference from the baseline below [stabilityThreshold]) and
    sharp (score at least [minBlurThreshold]), and it is not added to
    [stableFrames]; with no change pending the same frame is added. *)
Lemma stable_sharp_frame_dropped_in_open_window :
  let e := iterations flashVideo defaults 1 (bootstrap flashVideo defaults) in
  calculateFrameDifference sharpFrame flatFrame true == 201 # 1600 /\
  changeDetectedAt e = Some (currentTime (bootstrap flashVideo defaults)) /\
  currentTime (bootstrap flashVideo defaults) == 8 # 10 /\
  currentTime e == 1 /\
  windowElapsed defaults (changeDetectedAt e) (currentTime e) = false /\
  baselineFrame e = Some sharpFrame /\
  captureFrame flashVideo (captures e) = Some sharpFrame /\
  calculateFrameDifference sharpFrame sharpFrame true < stabilityThreshold defaults /\
  minBlurThreshold defaults <= calculateBlurScore sharpFrame /\
  stableFrames e = [] /\
  stableFrames (iteration flashVideo defaults e) = [] /\
  map frame (stableFrames (iteration stillVideo defaults
                             (bootstrap stillVideo defaults))) = [sharpFrame].
Proof.
  vm_compute. repeat split; intros H; discriminate H.
Qed.

(** C2.  Two frames of equal dimensions whose difference is negative,
    outside [0, 1]. *)
Lemma difference_below_zero :
  width whiteLeft = width whiteRight /\ height whiteLeft = height whiteRight /\
  calculateFrameDifference whiteLeft whiteRight true == - (6 # 25) /\
  ~ (0 <= calculateFrameDifference whiteLeft whiteRight true).
Proof.
  vm_compute. repeat split; intros H; apply H; reflexivity.
Qed.

(** C3.  The difference of a frame with itself is -0.24, not 0. *)
Lemma difference_with_itself_not_zero :
  calculateHistogramDifference blackDot blackDot == - (8 # 10) /\
  calculateStructuralDifference blackDot blackDot == 0 /\
  calculateFrameDifference blackDot blackDot true == - (6 # 25) /\
  ~ calculateFrameDifference blackDot blackDot true == 0.
Proof.
  vm_compute. repeat split; intros H; discriminate H.
Qed.

(** C4.  No partial block is compared: the only block of a 1 x 1 frame and
    the last column of a 33 x 32 frame do not count, however different the
    pixels in them are. *)
Lemma partial_blocks_not_compared :
  pixelDiff blackDot whiteDot 0 == 1 /\
  calculateStructuralDifference blackDot whiteDot = 0 /\
  pixelDiff wideBlack wideEdge (32 * 4) == 1 /\
  calculateStructuralDifference wideBlack wideEdge == 0.
Proof.
  vm_compute. repeat split.
Qed.

(** C5.  With the default options the still video of 1.65 s yields two
    screenshots, at 0.6 s and at 1.55 s: less than [minScreenshotInterval]
    apart. *)
Lemma final_frame_too_close :
  exists s0 s1,
    processVideo 10 stillVideo noOptions = Some (Returned [s0; s1]) /\
    timestamp s0 == 6 # 10 /\ timestamp s1 == 155 # 100 /\
    timestamp s1 - timestamp s0 < minScreenshotInterval defaults.
Proof.
  eexists. eexists. split; [vm_compute; reflexivity|].
  vm_compute. repeat split.
Qed.

(** ** Instances *)

(** The theorems above at the frames and videos of the scenarios. *)

Lemma wellFormed_sharpFrame : wellFormed sharpFrame.
Proof. repeat split. Qed.

Lemma wellFormed_flatFrame : wellFormed flatFrame.
Proof. repeat split. Qed.

Lemma uniformColor_flatFrame : uniformColor flatFrame 128 128 128.
Proof.
  intros p Hp. simpl in Hp.
  assert (H : (p = 0 \/ p = 1 \/ p = 2 \/ p = 3 \/ p = 4 \/ p = 5 \/ p = 6 \/
               p = 7 \/ p = 8 \/ p = 9 \/ p = 10 \/ p = 11)%Z) by lia.
  repeat (destruct H as [H|H]; [subst p; repeat split|]).
  subst p; repeat split.
Qed.

(** A sharp and a flat frame differ by the same amount in both orders. *)
Lemma calculateFrameDifference_symmetric_witness :
  wellFormed sharpFrame /\ wellFormed flatFrame /\
  calculateFrameDifference sharpFrame flatFrame true ==
  calculateFrameDifference flatFrame sharpFrame true.
Proof.
  split; [exact wellFormed_sharpFrame|].
  split; [exact wellFormed_flatFrame|].
  exact (calculateFrameDifference_symmetric sharpFrame flatFrame true
           wellFormed_sharpFrame wellFormed_flatFrame).
Defined.

(** A 1 x 1 frame against a 2 x 1 frame. *)
Lemma calculateFrameDifference_dimension_mismatch_witness :
  width blackDot <> width whiteLeft /\
  calculateFrameDifference blackDot whiteLeft true = 1 /\
  calculateHistogramDifference blackDot whiteLeft = 1.
Proof.
  assert (H : width blackDot <> width whiteLeft) by discriminate.
  split; [exact H|].
  exact (calculateFrameDifference_dimension_mismatch blackDot whiteLeft true
           (or_introl H)).
Defined.

(** A frame without interior and a uniformly gray frame. *)
Lemma calculateBlurScore_witness :
  (width whiteLeft <= 2)%Z /\ calculateBlurScore whiteLeft = 0 /\
  uniformColor flatFrame 128 128 128 /\ calculateBlurScore flatFrame == 0.
Proof.
  assert (H : (width whiteLeft <= 2)%Z) by discriminate.
  split; [exact H|].
  split;
    [exact (proj1 (proj2 (calculateBlurScore_nonneg_and_zero_cases whiteLeft))
              (or_introl H))|].
  split; [exact uniformColor_flatFrame|].
  exact (proj2 (proj2 (calculateBlurScore_nonneg_and_zero_cases flatFrame))
           128 128 128 uniformColor_flatFrame).
Defined.

(** The still video returns, and its first screenshot is the bootstrap
    one. *)
Lemma first_screenshot_witness :
  hasContext stillVideo = true /\
  screenshots (bootstrap stillVideo defaults) = [screenshot0 stillVideo defaults] /\
  exists fuel rest,
    processVideo fuel stillVideo noOptions
    = Some (Returned (screenshot0 stillVideo defaults :: rest)).
Proof.
  destruct (first_screenshot_always_emitted stillVideo noOptions eq_refl)
    as (Hfirst & _ & _ & _ & _ & Hreturns).
  split; [reflexivity|].
  split; [exact Hfirst|].
  apply (Hreturns ltac:(discriminate) ltac:(discriminate) (165 # 100) eq_refl);
    [intros H; discriminate H | reflexivity | reflexivity].
Defined.

(** The flash video after its first sample: a change is pending and no
    candidate is held. *)
Lemma pending_change_witness :
  let e := iterations flashVideo defaults 1 (bootstrap flashVideo defaults) in
  isSet (changeDetectedAt e) = true /\ stableFrames e = [] /\
  pendingChange defaults e = e.
Proof.
  intros e.
  assert (Hset : isSet (changeDetectedAt e) = true) by (vm_compute; reflexivity).
  destruct (pending_change_never_emits flashVideo defaults) as (Hiter & _).
  split; [exact Hset|].
  split; [exact (proj1 (Hiter 1%nat) Hset) | exact (proj2 (Hiter 1%nat))].
Defined.

(** * Further properties *)

(** ** Invariants of the sampling loop *)

Section LoopInvariants.

Variable video : Video.
Variable opts : ProcessingOptions.

Lemma pushDifference_bounded (recent : list Q) (difference : Q) :
  inject_Z (Z.of_nat (length recent)) <= motionSmoothing opts ->
  inject_Z (Z.of_nat (length (pushDifference opts recent difference)))
  <= motionSmoothing opts.
Proof.
  intros H. unfold pushDifference.
  destruct (Qgtb _ _) eqn:Hg.
  - destruct recent as [|x rest]; [exact H|].
    cbn [app tl]. rewrite length_app in *. cbn [length] in *.
    replace (length rest + 1)%nat with (Datatypes.S (length rest)) by lia.
    exact H.
  - apply Qltb_ge in Hg. exact Hg.
Qed.

Lemma iteration_recent_bounded (e : Engine) :
  0 <= motionSmoothing opts ->
  inject_Z (Z.of_nat (length (recentDifferences e))) <= motionSmoothing opts ->
  inject_Z (Z.of_nat (length (recentDifferences (iteration video opts e))))
  <= motionSmoothing opts.
Proof.
  intros Hms H. unfold iteration.
  destruct (captureFrame video (captures e)) as [currentFrame|]; [|exact H].
  destruct (baselineFrame e) as [baseline|]; [|exact H].
  destruct (detectChange _ _ _ _) as [changeAt stable'].
  destruct (windowElapsed opts changeAt (currentTime e)).
  - destruct (resolveWindow _ _ _ _ _) as [[shots last] baseline'].
    exact Hms.
  - apply pushDifference_bounded, H.
Qed.

(** X8.  The smoothing history never holds more than [motionSmoothing]
    differences (for a non-negative [motionSmoothing]): one is shifted out
    as soon as the pushed one exceeds the bound. *)
Theorem recentDifferences_bounded (n : nat) :
  0 <= motionSmoothing opts ->
  inject_Z (Z.of_nat (length (recentDifferences
                                (iterations video opts n (bootstrap video opts)))))
  <= motionSmoothing opts.
Proof.
  intros Hms.
  assert (H : forall n e,
             inject_Z (Z.of_nat (length (recentDifferences e)))
             <= motionSmoothing opts ->
             inject_Z (Z.of_nat (length (recentDifferences
                                           (iterations video opts n e))))
             <= motionSmoothing opts).
  { clear n. induction n as [|n IH]; intros e He; simpl; [assumption|].
    apply IH, iteration_recent_bounded; assumption. }
  apply H. unfold bootstrap, captureFrame.
  destruct (hasContext video); exact Hms.
Qed.







Lemma resolveWindow_baseline (e : Engine) (stable : list StableFrame)
    (frameNumber' : Z) (currentFrame : ImageData) :
  baselineIsLastShot (screenshots e) (baselineFrame e) (lastScreenshotTime e) ->
  let '(shots, last, baseline') :=
    resolveWindow opts e stable frameNumber' currentFrame in
  baselineIsLastShot shots baseline' last.
Proof.
  intros H. unfold resolveWindow, baselineIsLastShot.
  repeat match goal with
         | |- context [if ?c then _ else _] => destruct c
         | |- context [match sortBy ?c ?l with _ => _ end] => destruct (sortBy c l)
         end;
    try exact H; rewrite rev_unit; split; reflexivity.
Qed.

Lemma iteration_baseline (e : Engine) :
  baselineIsLastShot (screenshots e) (baselineFrame e) (lastScreenshotTime e) ->
  baselineIsLastShot (screenshots (iteration video opts e))
    (baselineFrame (iteration video opts e))
    (lastScreenshotTime (iteration video opts e)).
Proof.
  intros H. unfold iteration.
  destruct (captureFrame video (captures e)) as [currentFrame|]; [|exact H].
  destruct (baselineFrame e) as [baseline|] eqn:Hb; [|exact H].
  destruct (detectChange _ _ _ _) as [changeAt stable'].
  destruct (windowElapsed opts changeAt (currentTime e)); [|exact H].
  assert (Hr := resolveWindow_baseline e stable' (frameCounter e + 1) currentFrame).
  rewrite Hb in Hr. specialize (Hr H).
  destruct (resolveWindow _ _ _ _ _) as [[shots last] baseline'].
  exact Hr.
Qed.

(** X11.  After any number of iterations the baseline is the frame of the most
    recently emitted screenshot and [lastScreenshotTime] is its time
    stamp; before any emission [lastScreenshotTime] is still -1. *)
Theorem baseline_is_last_screenshot (n : nat) :
  let e := iterations video opts n (bootstrap video opts) in
  baselineIsLastShot (screenshots e) (baselineFrame e) (lastScreenshotTime e).
Proof.
  assert (H : forall n e,
             baselineIsLastShot (screenshots e) (baselineFrame e)
               (lastScreenshotTime e) ->
             baselineIsLastShot (screenshots (iterations video opts n e))
               (baselineFrame (iterations video opts n e))
               (lastScreenshotTime (iterations video opts n e))).
  { clear n. induction n as [|n IH]; intros e He; simpl; [assumption|].
    apply IH, iteration_baseline, He. }
  apply H. unfold bootstrap, captureFrame, baselineIsLastShot.
  destruct (hasContext video); simpl; auto.
Qed.

End LoopInvariants.

(** ** A video that never changes *)

Lemma sumOf_le (c : Q) (xs : list Q) :
  Forall (fun x => x <= c) xs ->
  forall acc, fold_left Qplus xs acc <= acc + inject_Z (Z.of_nat (length xs)) * c.
Proof.
  induction 1 as [|x xs Hx _ IH]; intros acc.
  - simpl. change (inject_Z 0) with 0. lra.
  - cbn [fold_left length]. eapply Qle_trans; [apply IH|].
    rewrite Nat2Z.inj_succ, <- Z.add_1_r, inject_Z_plus.
    change (inject_Z 1) with 1. lra.
Qed.

Lemma smoothed_le (c : Q) (recent : list Q) (s : Q) :
  Forall (fun x => x <= c) recent -> smoothed recent = Some s -> s <= c.
Proof.
  intros Hall Hs. unfold smoothed in Hs.
  destruct recent as [|x rest]; [discriminate|].
  inversion Hs; subst s; clear Hs.
  apply Qle_shift_div_r.
  - change 0 with (inject_Z 0). rewrite <- Zlt_Qlt. simpl. lia.
  - assert (H := sumOf_le c _ Hall 0). unfold sumOf.
    cbn [length Z.of_nat] in H. lra.
Qed.

Lemma pushDifference_Forall (opts : ProcessingOptions) (P : Q -> Prop)
    (recent : list Q) (difference : Q) :
  Forall P recent -> P difference ->
  Forall P (pushDifference opts recent difference).
Proof.
  intros Hr Hd. unfold pushDifference.
  assert (H : Forall P (recent ++ [difference])).
  { apply Forall_app. split; [assumption | constructor; [assumption | constructor]]. }
  destruct (Qgtb _ _); [|assumption].
  destruct (recent ++ [difference]); [constructor | now inversion H].
Qed.

Section StillVideo.

Variable video : Video.
Variable opts : ProcessingOptions.
Variable still : ImageData.

Hypothesis has_context : hasContext video = true.
Hypothesis always_still : forall k, drawn video k = still.
Hypothesis still_wellFormed : wellFormed still.
Hypothesis threshold_nonneg : 0 <= changeThreshold opts.

Lemma iteration_still (e : Engine) :
  quiet still (screenshot0 video opts) e ->
  quiet still (screenshot0 video opts) (iteration video opts e).
Proof.
  intros (Hs & Hb & Hc & Hr). unfold iteration, captureFrame.
  rewrite has_context, always_still, Hb, Hc.
  set (difference := calculateFrameDifference still still true).
  assert (Hd : difference <= - (6 # 25))
    by apply calculateFrameDifference_same, still_wellFormed.
  set (recent := pushDifference opts (recentDifferences e) difference).
  assert (Hrecent : Forall (fun x => x <= - (6 # 25)) recent)
    by now apply pushDifference_Forall.
  assert (Hsig : isSignificantChange opts recent difference = false).
  { unfold isSignificantChange. apply orb_false_iff. split.
    - destruct (smoothed recent) as [s|] eqn:Hsm; [|reflexivity].
      assert (Hle := smoothed_le _ _ _ Hrecent Hsm).
      apply Qltb_ge. lra.
    - apply Qltb_ge. lra. }
  rewrite Hsig. unfold detectChange. cbn [andb windowElapsed].
  repeat split; assumption.
Qed.

Lemma iterations_still (n : nat) :
  quiet still (screenshot0 video opts)
    (iterations video opts n (bootstrap video opts)).
Proof.
  assert (H : forall n e,
             quiet still (screenshot0 video opts) e ->
             quiet still (screenshot0 video opts) (iterations video opts n e)).
  { clear n. induction n as [|n IH]; intros e He; simpl; [assumption|].
    apply IH, iteration_still, He. }
  apply H.
  destruct (bootstrap_emits video opts has_context) as (Hs & Hb & _).
  destruct (bootstrap_idle video opts) as [Hc _].
  repeat split; try assumption.
  - rewrite Hb, always_still. reflexivity.
  - unfold bootstrap, captureFrame. rewrite has_context. constructor.
Qed.

End StillVideo.

(** X15.  A video that shows one and the same frame throughout never triggers a
    change (for a non-negative [changeThreshold]): the sampling loop emits
    nothing after screenshot 0, and the run returns screenshot 0 alone or
    followed by the final frame, which is emitted when it is sharp enough
    and the video lasts [minScreenshotInterval] beyond screenshot 0. *)
Theorem still_video_one_or_two_screenshots (video : Video)
    (options : PartialOptions) (still : ImageData) :
  hasContext video = true ->
  (forall k, drawn video k = still) ->
  wellFormed still ->
  0 <= changeThreshold (resolveOptions options) ->
  let opts := resolveOptions options in
  let first := screenshot0 video opts in
  (forall n,
     let e := iterations video opts n (bootstrap video opts) in
     screenshots e = [first] /\ changeDetectedAt e = None) /\
  (forall fuel shots,
     processVideo fuel video options = Some (Returned shots) ->
     shots = [first] \/
     exists final d,
       shots = [first; final] /\ duration video = Finite d /\
       dataUrl final = still /\ timestamp final = d - (1 # 10) /\
       minBlurThreshold opts <= calculateBlurScore still /\
       minScreenshotInterval opts <= Qabs (d - timestamp first)).
Proof.
  intros Hctx Hstill Hwf Hct opts first.
  assert (Hq := iterations_still video opts still Hctx Hstill Hwf Hct).
  split.
  - intros n. destruct (Hq n) as (Hs & _ & Hc & _). now split.
  - intros fuel shots. unfold processVideo. fold opts. rewrite Hctx. cbn [negb].
    destruct ((videoWidth video =? 0)%Z || (videoHeight video =? 0)%Z);
      [discriminate|].
    destruct (duration video) as [d|]; [|discriminate].
    destruct (Qeq_bool d 0); [discriminate|].
    destruct (sampling video opts fuel d (bootstrap video opts)) as [e|] eqn:He;
      [|discriminate].
    intros H. inversion H; subst shots; clear H.
    rewrite (proj2 (pending_change_idle_aux video opts) fuel d e He).
    destruct (sampling_iterations video opts fuel d _ _ He) as [n ->].
    destruct (Hq n) as (Hs & _ & _ & _).
    unfold finalFrame, captureFrame. rewrite Hctx, Hstill, Hs. cbn [rev app].
    destruct (Qgeb (Qabs (d - timestamp (screenshot0 video opts)))
                (minScreenshotInterval opts)) eqn:Hgap; [|now left].
    destruct (Qgeb (calculateBlurScore still) (minBlurThreshold opts)) eqn:Hblur;
      [|now left].
    right. eexists. exists d. cbn [andb app].
    repeat split; [now apply Qgeb_ge | now apply Qgeb_ge].
Qed.

(** ** Time stamps and the end of the video *)

Section Stamps.

Variable video : Video.
Variable opts : ProcessingOptions.
Variable d : Q.

Lemma iteration_stamps (e : Engine) :
  currentTime e < d - (1 # 10) ->
  noCandidateWhilePending (changeDetectedAt e) (stableFrames e) ->
  Forall (fun s => timestamp s < d - (1 # 10)) (tl (screenshots e)) ->
  screenshots e <> [] ->
  Forall (fun s => timestamp s < d - (1 # 10))
    (tl (screenshots (iteration video opts e))) /\
  screenshots (iteration video opts e) <> [].
Proof.
  intros Hnow Inv Hall Hne. unfold iteration.
  destruct (captureFrame video (captures e)) as [currentFrame|]; [|now split].
  destruct (baselineFrame e) as [baseline|]; [|now split].
  set (difference := calculateFrameDifference baseline currentFrame true).
  set (recent := pushDifference opts (recentDifferences e) difference).
  set (stable := collectStable opts (changeDetectedAt e) (stableFrames e)
                   (currentTime e) currentFrame difference).
  assert (Hs : noCandidateWhilePending (changeDetectedAt e) stable).
  { intros Hset. unfold stable. rewrite collectStable_pending by assumption.
    now apply Inv. }
  assert (Hd := detectChange_keeps (changeDetectedAt e) stable (currentTime e)
                  (isSignificantChange opts recent difference) Hs).
  destruct (detectChange (changeDetectedAt e) stable (currentTime e)
              (isSignificantChange opts recent difference)) as [changeAt stable'].
  cbn [fst snd] in Hd.
  destruct (windowElapsed opts changeAt (currentTime e)) eqn:Hw; [|now split].
  assert (Hset : isSet changeAt = true).
  { unfold windowElapsed in Hw. destruct changeAt as [t|]; [|discriminate].
    apply andb_true_iff in Hw. exact (proj1 Hw). }
  rewrite (Hd Hset). unfold resolveWindow.
  cbn [length Z.of_nat Z.ltb Z.eqb andb]. change (0 ?= 0)%Z with Eq. cbn match.
  destruct (Qgeb (currentTime e - lastScreenshotTime e) (minScreenshotInterval opts));
    [|now split].
  destruct (Qgeb (calculateBlurScore currentFrame) (minBlurThreshold opts));
    [|now split].
  cbn [screenshots]. split.
  - destruct (screenshots e) as [|s0 rest]; [congruence|].
    cbn [app tl] in *. apply Forall_app. split; [assumption|].
    constructor; [exact Hnow | constructor].
  - destruct (screenshots e); discriminate.
Qed.

Lemma sampling_stamps (fuel : nat) :
  forall e e',
    sampling video opts fuel d e = Some e' ->
    noCandidateWhilePending (changeDetectedAt e) (stableFrames e) ->
    Forall (fun s => timestamp s < d - (1 # 10)) (tl (screenshots e)) ->
    screenshots e <> [] ->
    Forall (fun s => timestamp s < d - (1 # 10)) (tl (screenshots e')) /\
    screenshots e' <> [].
Proof.
  induction fuel as [|fuel IH]; intros e e' H Inv Hall Hne; simpl in H;
    [discriminate|].
  destruct (Qltb (currentTime e) (d - (1 # 10))) eqn:Hc.
  - apply Qltb_lt in Hc.
    destruct (iteration_stamps e Hc Inv Hall Hne) as [Hall' Hne'].
    apply (IH _ _ H); [now apply iteration_keeps | assumption | assumption].
  - inversion H; subst e'. now split.
Qed.

End Stamps.

(** X14.  Every screenshot of a run but the first is stamped no later than
    [duration - 0.1] (strictly earlier when the loop emitted it); the first
    one carries [0.1 + stabilityWindow] whatever the duration. *)
Theorem later_screenshots_before_the_end (fuel : nat) (video : Video)
    (options : PartialOptions) (d : Q) (shots : list Screenshot) :
  duration video = Finite d ->
  processVideo fuel video options = Some (Returned shots) ->
  exists first rest,
    shots = first :: rest /\
    timestamp first = (1 # 10) + stabilityWindow (resolveOptions options) /\
    Forall (fun s => timestamp s <= d - (1 # 10)) rest.
Proof.
  intros Hd. unfold processVideo.
  set (opts := resolveOptions options).
  destruct (hasContext video) eqn:Hctx; [|discriminate]. cbn [negb].
  destruct ((videoWidth video =? 0)%Z || (videoHeight video =? 0)%Z);
    [discriminate|].
  rewrite Hd.
  destruct (Qeq_bool d 0); [discriminate|].
  destruct (sampling video opts fuel d (bootstrap video opts)) as [e|] eqn:He;
    [|discriminate].
  intros H. inversion H; subst shots; clear H.
  rewrite (proj2 (pending_change_idle_aux video opts) fuel d e He).
  destruct (bootstrap_emits video opts Hctx) as (Hs & _ & _).
  destruct (bootstrap_idle video opts) as [Hc _].
  destruct (sampling_stamps video opts d fuel _ _ He) as [Hall Hne].
  { rewrite Hc. intros Hset. discriminate Hset. }
  { rewrite Hs. constructor. }
  { rewrite Hs. discriminate. }
  destruct (sampling_iterations video opts fuel d _ _ He) as [n Hn].
  destruct (iterations_append video opts n (bootstrap video opts)) as [more Hmore].
  rewrite <- Hn, Hs in Hmore. cbn [app] in Hmore.
  rewrite Hmore in Hall. cbn [tl] in Hall.
  assert (Hweak : Forall (fun s => timestamp s <= d - (1 # 10)) more).
  { eapply Forall_impl; [|exact Hall]. intros s Hlt. now apply Qlt_le_weak. }
  destruct (finalFrame_appends video opts d e) as [fin Hfin].
  unfold finalFrame in *. 
  destruct (captureFrame video (captures e)) as [final|].
  - rewrite Hmore in *.
    exists (screenshot0 video opts).
    destruct (rev (screenshot0 video opts :: more)) as [|lastShot r].
    + destruct (Qgeb (calculateBlurScore final) (minBlurThreshold opts)).
      * exists (more ++ [mkScreenshot IdFinal final (d - (1 # 10)) 0
                           (calculateBlurScore final)]).
        repeat split. apply Forall_app. split; [assumption|].
        constructor; [cbn; lra | constructor].
      * exists more. repeat split. assumption.
    + destruct (_ && _).
      * eexists. split; [reflexivity|]. split; [reflexivity|].
        apply Forall_app. split; [assumption|].
        constructor; [cbn; lra | constructor].
      * exists more. repeat split. assumption.
  - exists (screenshot0 video opts), more. rewrite Hmore. repeat split. assumption.
Qed.

(** ** The range of the difference analyzer *)

Lemma at_range (d : list byte) (i : Z) : 0 <= at_ d i <= 255.
Proof.
  split; [apply at_nonneg|].
  unfold at_. change 255 with (inject_Z 255). rewrite <- Zle_Qle.
  assert (H := Byte.to_N_bounded (nth (Z.to_nat i) d x00)). lia.
Qed.

Lemma channel_gap (a b : Q) :
  0 <= a <= 255 -> 0 <= b <= 255 -> 0 <= Qabs (a - b) <= 255.
Proof.
  intros Ha Hb. split; [apply Qabs_nonneg|].
  apply Qabs_Qle_condition. lra.
Qed.

Lemma pixelDiff_range (frame1 frame2 : ImageData) (idx : Z) :
  0 <= pixelDiff frame1 frame2 idx <= 1.
Proof.
  unfold pixelDiff.
  assert (Hr := channel_gap _ _ (at_range (data frame1) idx)
                  (at_range (data frame2) idx)).
  assert (Hg := channel_gap _ _ (at_range (data frame1) (idx + 1))
                  (at_range (data frame2) (idx + 1))).
  assert (Hb := channel_gap _ _ (at_range (data frame1) (idx + 2))
                  (at_range (data frame2) (idx + 2))).
  split.
  - apply Qle_shift_div_l; lra.
  - apply Qle_shift_div_r; lra.
Qed.

Lemma averaged_step (sum : Q) (count : Z) (x : Q) :
  averaged (sum, count) -> 0 <= x <= 1 -> averaged (sum + x, (count + 1)%Z).
Proof.
  unfold averaged. cbn [fst snd]. intros (Hc & H0 & H1) Hx.
  rewrite inject_Z_plus. change (inject_Z 1) with 1.
  repeat split; [lia | lra | lra].
Qed.

Lemma averaged_mean (sum : Q) (count : Z) :
  averaged (sum, count) -> (0 < count)%Z -> 0 <= sum / inject_Z count <= 1.
Proof.
  unfold averaged. cbn [fst snd]. intros (_ & H0 & H1) Hc.
  assert (Hpos : 0 < inject_Z count).
  { change 0 with (inject_Z 0). now rewrite <- Zlt_Qlt. }
  split.
  - apply Qle_shift_div_l; [assumption | lra].
  - apply Qle_shift_div_r; [assumption | lra].
Qed.

Lemma averaged_result (sum : Q) (count : Z) :
  averaged (sum, count) ->
  0 <= (if (0 <? count)%Z then sum / inject_Z count else 0) <= 1.
Proof.
  intros H. destruct (Z.ltb_spec 0 count); [now apply averaged_mean | lra].
Qed.

Lemma averaged_start : averaged (0, 0%Z).
Proof. unfold averaged. cbn [fst snd]. change (inject_Z 0) with 0. repeat split; (lia || lra). Qed.

Lemma compareBlock_averaged (frame1 frame2 : ImageData) (bx by_ : Z) :
  averaged (compareBlock frame1 frame2 bx by_).
Proof.
  unfold compareBlock.
  apply (for_loop_inv averaged 1 _ _ 0%Z); [lia| |lia|apply averaged_start].
  intros py s _ _ Hs.
  apply (for_loop_inv averaged 1 _ _ 0%Z); [lia| |lia|assumption].
  intros px [bd pc] _ _ H.
  apply averaged_step; [assumption | apply pixelDiff_range].
Qed.

Lemma calculateStructuralDifference_bounds (frame1 frame2 : ImageData) :
  wellFormed frame1 -> wellFormed frame2 ->
  width frame1 = width frame2 -> height frame1 = height frame2 ->
  0 <= calculateStructuralDifference frame1 frame2 <= 1.
Proof.
  intros _ _ _ _. unfold calculateStructuralDifference.
  match goal with
  | |- _ <= (let '(_, _) := ?l in _) <= _ =>
      assert (H : averaged l); [|destruct l as [d n]; now apply averaged_result]
  end.
  apply (for_loop_inv averaged 1 _ _ 0%Z); [lia| |lia|apply averaged_start].
  intros by_ s _ _ Hs.
  apply (for_loop_inv averaged 1 _ _ 0%Z); [lia| |lia|assumption].
  intros bx [td bc] _ _ H.
  assert (Hb := compareBlock_averaged frame1 frame2 bx by_).
  destruct (compareBlock frame1 frame2 bx by_) as [bd pc].
  destruct (Z.ltb_spec 0 pc); [|assumption].
  apply averaged_step; [assumption | now apply averaged_mean].
Qed.


Lemma pixelComparison_range (frame1 frame2 : ImageData) :
  0 <= pixelComparison frame1 frame2 <= 1.
Proof.
  unfold pixelComparison.
  match goal with
  | |- _ <= (let '(_, _) := ?l in _) <= _ =>
      assert (H : averaged l); [|destruct l as [d n]; now apply averaged_result]
  end.
  apply (for_loop_inv averaged (4 * 16) _ _ 0%Z); [lia| |lia|apply averaged_start].
  intros i [d n] _ _ H.
  apply averaged_step; [assumption|].
  assert (Hr := channel_gap _ _ (at_range (data frame1) i)
                  (at_range (data frame2) i)).
  assert (Hg := channel_gap _ _ (at_range (data frame1) (i + 1))
                  (at_range (data frame2) (i + 1))).
  assert (Hb := channel_gap _ _ (at_range (data frame1) (i + 2))
                  (at_range (data frame2) (i + 2))).
  split.
  - apply Qle_shift_div_l; [lra|]. apply Qle_shift_div_l; lra.
  - apply Qle_shift_div_r; [lra|]. apply Qle_shift_div_r; lra.
Qed.

Lemma pixelComparison_same (frame : ImageData) : pixelComparison frame frame == 0.
Proof.
  unfold pixelComparison.
  match goal with
  | |- (let '(_, _) := ?l in _) == _ =>
      assert (H : fst l == 0); [|destruct l as [d n]]
  end.
  - apply (for_loop_inv (fun s : Q * Z => fst s == 0) (4 * 16) _ _ 0%Z);
      [lia| |lia|reflexivity].
    intros i [d n] _ _ Hd. cbn [fst] in *.
    assert (E : forall x, Qabs (x - x) == 0).
    { intros x. assert (E : x - x == 0) by ring. rewrite E. reflexivity. }
    rewrite Hd, !E. reflexivity.
  - cbn [fst] in H. destruct (0 <? n)%Z; [|reflexivity].
    rewrite H. unfold Qdiv. ring.
Qed.

(** X5.  Without the histogram ([useHistogram = false]) the frame difference is
    a number between 0 and 1, and it is 0 for a frame against itself. *)
Theorem pixel_fallback_range_and_identity (frame1 frame2 : ImageData) :
  wellFormed frame1 -> wellFormed frame2 ->
  0 <= calculateFrameDifference frame1 frame2 false <= 1 /\
  calculateFrameDifference frame1 frame1 false == 0.
Proof.
  intros _ _. unfold calculateFrameDifference. split.
  - destruct (_ || _); [lra | apply pixelComparison_range].
  - rewrite !Z.eqb_refl. cbn [negb orb]. apply pixelComparison_same.
Qed.

Lemma bump_nonneg (i : nat) (hist : list Q) :
  Forall (fun c => 0 <= c) hist -> Forall (fun c => 0 <= c) (bump i hist).
Proof.
  intros H. revert i.
  induction H as [|c rest Hc Hrest IH]; intros [|j]; simpl.
  - constructor.
  - constructor.
  - constructor; [lra | exact Hrest].
  - constructor; [exact Hc | apply IH].
Qed.

Lemma addSample_nonneg (d : list byte) (i : Z) (hist : list Q) :
  Forall (fun c => 0 <= c) hist -> Forall (fun c => 0 <= c) (addSample d i hist).
Proof.
  intros H. unfold addSample, bumpAt. now repeat apply bump_nonneg.
Qed.

Lemma sampleRate_div (d : list byte) :
  sampleRate d = Z.max 1 (Z.of_nat (length d) / 40000).
Proof.
  unfold sampleRate. f_equal.
  rewrite (Zdiv_Qdiv (Z.of_nat (length d)) 40000).
  apply Qfloor_comp. field.
Qed.

Lemma buildHistograms_sampled (data1 data2 : list byte) :
  (0 < length data1)%nat ->
  exists k,
    sampled (Z.of_nat (length data1)) (4 * sampleRate data1) k
      (buildHistograms data1 data2).
Proof.
  intros Hpos. unfold buildHistograms.
  assert (Hsr : (1 <= sampleRate data1)%Z) by (unfold sampleRate; lia).
  set (len := Z.of_nat (length data1)).
  set (step := (4 * sampleRate data1)%Z).
  destruct (for_loop_count (sampled len step) 0 step
              (fun i => (i <? len)%Z)
              (fun i '(hist1, hist2) =>
                 (addSample data1 i hist1, addSample data2 i hist2)))
    with (fuel := length data1) (k := 0%Z)
         (s := (repeat 0 (Z.to_nat (bins * 3)), repeat 0 (Z.to_nat (bins * 3))))
    as (k & Hk & HP & Hexit).
  - intros k [h1 h2] Hk Hc (Hb & (L1 & T1 & N1) & (L2 & T2 & N2)).
    cbn [fst snd] in *. apply Z.ltb_lt in Hc.
    split; [|split]; cbn [fst snd].
    + right. replace (k + 1 - 1)%Z with k by lia. lia.
    + repeat split.
      * now rewrite addSample_length.
      * rewrite addSample_total, T1, inject_Z_plus by assumption.
        change (inject_Z 1) with 1. ring.
      * now apply addSample_nonneg.
    + repeat split.
      * now rewrite addSample_length.
      * rewrite addSample_total, T2, inject_Z_plus by assumption.
        change (inject_Z 1) with 1. ring.
      * now apply addSample_nonneg.
  - lia.
  - split; [now left|].
    split; (split; [apply repeat_length|]);
      (split; [vm_compute; reflexivity|]);
      apply Forall_forall; intros x Hx; apply repeat_spec in Hx; subst x; lra.
  - change (0 + 0 * step)%Z with 0%Z in HP.
    exists k. destruct HP as (Hb & H1 & H2).
    split; [|now split].
    destruct Hexit as [Hexit|Hexit].
    + apply Z.ltb_ge in Hexit. destruct Hb as [Hb|Hb]; [|exact (or_intror Hb)].
      subst k. unfold len in Hexit. lia.
    + destruct Hb as [Hb|Hb]; [|exact (or_intror Hb)].
      unfold len in *. lia.
Qed.

Lemma normalize_nonneg (total : Z) (hist : list Q) :
  Forall (fun c => 0 <= c) hist -> Forall (fun c => 0 <= c) (normalize total hist).
Proof.
  intros H. unfold normalize.
  destruct (Z.ltb_spec 0 total) as [Ht|Ht]; [|assumption].
  apply Forall_map. eapply Forall_impl; [|exact H].
  intros c Hc. cbn beta in *. apply Qle_shift_div_l; [|lra].
  change 0 with (inject_Z 0). now rewrite <- Zlt_Qlt.
Qed.

Lemma binTotal_nonneg (hist : list Q) :
  Forall (fun c => 0 <= c) hist -> 0 <= binTotal hist.
Proof.
  induction 1 as [|c rest Hc _ IH]; simpl; lra.
Qed.

Lemma compareBins_bounds (hist1 hist2 : list Q) :
  Forall (fun c => 0 <= c) hist1 -> Forall (fun c => 0 <= c) hist2 ->
  forall s,
    fst s <= fst (fold_left compareBin (combine hist1 hist2) s)
    /\ fst (fold_left compareBin (combine hist1 hist2) s) <= fst s + binTotal hist1
    /\ snd s <= snd (fold_left compareBin (combine hist1 hist2) s).
Proof.
  intros H1. revert hist2.
  induction H1 as [|h1 r1 Hh1 Hr1 IH]; intros hist2 H2 [i c].
  - simpl. repeat split; lra.
  - destruct H2 as [|h2 r2 Hh2 Hr2].
    + assert (Hn := binTotal_nonneg _ Hr1). simpl. repeat split; lra.
    + cbn [combine fold_left].
      set (s' := compareBin (i, c) (h1, h2)).
      destruct (IH r2 Hr2 s') as (Ha & Hb & Hc).
      assert (Hf : fst s' = i + Qmin h1 h2) by reflexivity.
      assert (Hmin0 : 0 <= Qmin h1 h2) by (apply Q.min_glb; assumption).
      assert (Hmin1 : Qmin h1 h2 <= h1) by apply Q.le_min_l.
      assert (Hchi : c <= snd s').
      { unfold s'. cbn [compareBin snd].
        destruct (Qgtb (h1 + h2) 0) eqn:Hg; [|lra].
        apply Qltb_lt in Hg.
        assert (0 <= (h1 - h2) * (h1 - h2) / (h1 + h2)).
        { apply Qle_shift_div_l; [assumption|].
          assert (Hsq := Qsqr_nonneg (h1 - h2)). simpl in Hsq. lra. }
        lra. }
      rewrite Hf in Ha, Hb.
      change (binTotal (h1 :: r1)) with (h1 + binTotal r1). cbn [fst snd].
      repeat split; lra.
Qed.

Lemma compareHistograms_bounds (hist1 hist2 : list Q) :
  Forall (fun c => 0 <= c) hist1 -> Forall (fun c => 0 <= c) hist2 ->
  (1 - binTotal hist1) * (4 # 10) <= compareHistograms hist1 hist2 <= 1.
Proof.
  intros H1 H2. unfold compareHistograms.
  destruct (compareBins_bounds hist1 hist2 H1 H2 (0, 0)) as (Ha & Hb & Hc).
  destruct (fold_left compareBin (combine hist1 hist2) (0, 0)) as [i c].
  cbn [fst snd] in *.
  set (n := inject_Z (Z.of_nat (length hist1))).
  assert (Hn : 0 <= n).
  { unfold n. change 0 with (inject_Z 0). rewrite <- Zle_Qle. lia. }
  assert (Hq : 0 <= c / n).
  { unfold Qdiv. apply Qmult_le_0_compat; [assumption|].
    now apply Qinv_le_0_compat. }
  assert (Hm0 : 0 <= Qmin 1 (c / n)) by (apply Q.min_glb; lra).
  assert (Hm1 : Qmin 1 (c / n) <= 1) by apply Q.le_min_l.
  split; lra.
Qed.

Lemma sampled_share (len sr k : Z) :
  (0 < len)%Z -> (len mod 4 = 0)%Z -> sr = Z.max 1 (len / 40000) ->
  (k = 0 \/ (4 * sr) * (k - 1) < len)%Z ->
  (0 < len / (4 * sr) /\ 36 * k <= 37 * (len / (4 * sr)))%Z.
Proof.
  intros Hlen Hmod Hsr Hk.
  assert (Hpc : (len = 4 * (len / 4))%Z).
  { rewrite (Z.div_mod len 4) at 1 by lia. lia. }
  set (pc := (len / 4)%Z) in *.
  assert (Hp : (1 <= pc)%Z) by lia.
  assert (H40 : (len / 40000 = pc / 10000)%Z).
  { rewrite Hpc. replace 40000%Z with (4 * 10000)%Z by reflexivity.
    rewrite Z.div_mul_cancel_l by lia. reflexivity. }
  assert (Ht : (len / (4 * sr) = pc / sr)%Z).
  { rewrite Hpc at 1. rewrite Z.div_mul_cancel_l by lia. reflexivity. }
  rewrite Ht, H40 in *. clear Ht H40.
  assert (Hsr1 : (1 <= sr)%Z) by lia.
  assert (Hlo := Z.mul_div_le pc sr ltac:(lia)).
  assert (Hhi := Z.mul_succ_div_gt pc sr ltac:(lia)).
  assert (H10 := Z.mul_div_le pc 10000 ltac:(lia)).
  destruct (Z.max_spec 1 (pc / 10000)) as [[Hlt Hmax]|[Hge Hmax]];
    rewrite Hmax in Hsr.
  - (* at least 20000 pixels: one sample in [sr], at least 10000 samples *)
    assert (Hbig : (10000 <= pc / sr)%Z).
    { apply Z.div_le_lower_bound; [lia|]. subst sr. lia. }
    split; [lia|]. destruct Hk as [Hk|Hk]; [lia|]. nia.
  - subst sr. rewrite Z.div_1_r in *. split; [lia|].
    destruct Hk as [Hk|Hk]; lia.
Qed.

Lemma calculateHistogramDifference_range (frame1 frame2 : ImageData) :
  wellFormed frame1 -> wellFormed frame2 ->
  - (5 # 6) <= calculateHistogramDifference frame1 frame2 <= 1.
Proof.
  intros (Hw & Hh & Hlen) _. unfold calculateHistogramDifference.
  destruct (_ || _); [lra|].
  assert (Hpos : (0 < Z.of_nat (length (data frame1)))%Z) by (rewrite Hlen; nia).
  destruct (buildHistograms_sampled (data frame1) (data frame2)) as [k Hs]; [lia|].
  destruct (buildHistograms (data frame1) (data frame2)) as [h1 h2].
  destruct Hs as (Hk & (L1 & T1 & N1) & (L2 & T2 & N2)). cbn [fst snd] in *.
  rewrite <- Zdiv_Qdiv.
  set (total := (Z.of_nat (length (data frame1)) / (4 * sampleRate (data frame1)))%Z).
  destruct (sampled_share _ _ k Hpos
              ltac:(rewrite Hlen, <- Z.mul_assoc, Z.mul_comm; apply Z.mod_mul; lia)
              (sampleRate_div (data frame1)) Hk) as [Htot Hshare].
  fold total in Htot, Hshare.
  destruct (compareHistograms_bounds (normalize total h1) (normalize total h2)
              (normalize_nonneg _ _ N1) (normalize_nonneg _ _ N2)) as [Hlo Hhi].
  split; [|assumption].
  rewrite normalize_total, T1 in Hlo by assumption.
  assert (Hq : 3 * inject_Z k / inject_Z total <= 37 # 12).
  { apply Qle_shift_div_r.
    - change 0 with (inject_Z 0). now rewrite <- Zlt_Qlt.
    - assert (H : inject_Z (36 * k) <= inject_Z (37 * total))
        by now rewrite <- Zle_Qle.
      rewrite !inject_Z_mult in H.
      change (inject_Z 36) with 36 in H. change (inject_Z 37) with 37 in H. lra. }
  lra.
Qed.

(** X1.  The frame difference of two frames lies between -1/4 and 1: the
    structural component is in [0, 1], the histogram component can fall
    to about -0.8 because the intersection is summed over three channels. *)
Theorem calculateFrameDifference_range (frame1 frame2 : ImageData) :
  wellFormed frame1 -> wellFormed frame2 ->
  - (1 # 4) <= calculateFrameDifference frame1 frame2 true <= 1.
Proof.
  intros W1 W2. unfold calculateFrameDifference.
  destruct (width frame1 =? width frame2)%Z eqn:Hw; [|cbn; lra].
  destruct (height frame1 =? height frame2)%Z eqn:Hh; [|cbn; lra].
  apply Z.eqb_eq in Hw, Hh. cbn [negb orb].
  assert (Hh' := calculateHistogramDifference_range frame1 frame2 W1 W2).
  assert (Hs := calculateStructuralDifference_bounds frame1 frame2 W1 W2 Hw Hh).
  lra.
Qed.


(** ** Display helpers *)




Lemma le_round (n : Z) (x : Q) :
  (n <= round x)%Z <-> inject_Z n - (1 # 2) <= x.
Proof.
  unfold round. split; intros H.
  - assert (H1 := Qfloor_le (x + (1 # 2))).
    rewrite Zle_Qle in H. lra.
  - rewrite <- (Qfloor_Z n). apply Qfloor_resp_le. lra.
Qed.

Lemma getClarityIndex_value (b : Q) :
  getClarityIndex (Some b) = Z.min 100 (round ((b / 300) * 100)).
Proof.
  unfold getClarityIndex.
  destruct (Qeq_bool b 0) eqn:Hz; [|reflexivity].
  apply Qeq_bool_iff in Hz.
  assert (E : b / 300 * 100 + (1 # 2) == 1 # 2) by (rewrite Hz; reflexivity).
  unfold round. rewrite (Qfloor_comp _ _ E). reflexivity.
Qed.

Lemma calculateBlurScore_nonneg (imageData : ImageData) :
  0 <= calculateBlurScore imageData.
Proof.
  unfold calculateBlurScore.
  destruct (laplacianOf imageData); [lra | apply varianceOf_nonneg].
Qed.

(** X18.  The clarity index grows with the blur score, and for the score of any
    frame it is a percentage between 0 and 100. *)
Theorem getClarityIndex_monotone_percentage :
  (forall b b', b <= b' -> (getClarityIndex (Some b) <= getClarityIndex (Some b'))%Z) /\
  (forall imageData,
     (0 <= getClarityIndex (Some (calculateBlurScore imageData)) <= 100)%Z).
Proof.
  split.
  - intros b b' H. rewrite !getClarityIndex_value.
    apply Z.min_le_compat_l. unfold round. apply Qfloor_resp_le.
    assert (E : forall y, y / 300 * 100 == y * (1 # 3)) by (intros y; field).
    rewrite !E. lra.
  - intros imageData. rewrite getClarityIndex_value.
    assert (H := calculateBlurScore_nonneg imageData).
    split; [|apply Z.le_min_l].
    apply Z.min_glb; [lia|].
    apply le_round.
    assert (E : forall y, y / 300 * 100 == y * (1 # 3)) by (intros y; field).
    rewrite E. change (inject_Z 0) with 0. lra.
Qed.


(** ** Bounding boxes and detections *)












(** X23.  Detections of different classes never match: when no object of the
    first set shares its class with an object of the second, and the sets
    are not both empty, the similarity is 0. *)
Theorem calculateObjectSimilarity_other_classes
    (objects1 objects2 : list ML.DetectedObject) :
  objects1 <> [] \/ objects2 <> [] ->
  (forall o1 o2, In o1 objects1 -> In o2 objects2 -> ML.class o1 <> ML.class o2) ->
  ML.calculateObjectSimilarity objects1 objects2 == 0.
Proof.
  intros Hne Hcls. unfold ML.calculateObjectSimilarity.
  destruct objects1 as [|o1 r1].
  { destruct objects2; [destruct Hne; congruence | reflexivity]. }
  destruct objects2 as [|o2 r2]; [reflexivity|].
  set (objects1 := o1 :: r1) in *. set (objects2 := o2 :: r2) in *.
  assert (Hbest : forall obj1, In obj1 objects1 ->
             ML.bestMatch obj1 objects2 [] = (0, (-1)%Z)).
  { intros obj1 Hin. unfold ML.bestMatch.
    apply (for_loop_inv (fun s : Q * Z => s = (0, (-1)%Z)) 1 _ _ 0%Z);
      [lia| |lia|reflexivity].
    intros i s Hi Hc ->. apply Z.ltb_lt in Hc. cbn [ML.has existsb].
    assert (Hcl : String.eqb (ML.class obj1)
                    (ML.class (nth (Z.to_nat i) objects2 ML.noObject)) = false).
    { apply String.eqb_neq, Hcls; [assumption|]. apply nth_In. lia. }
    rewrite Hcl, andb_false_r. reflexivity. }
  assert (Hfold : forall objs, incl objs objects1 ->
             fold_left (ML.matchObject objects2) objs (0, []) = (0, [])).
  { induction objs as [|obj rest IH]; intros Hincl; [reflexivity|].
    cbn [fold_left]. unfold ML.matchObject at 2.
    rewrite Hbest by (apply Hincl; now left). cbn [Z.leb Z.compare].
    apply IH. intros x Hx. apply Hincl. now right. }
  rewrite (Hfold objects1 (incl_refl _)).
  destruct (Qgtb _ 0); [|reflexivity].
  unfold Qdiv. ring.
Qed.

(** ** The object-detection processor *)

Lemma lastOr_snoc (stamps : list Q) (t : Q) :
  forall prev, lastOr prev (stamps ++ [t]) = t.
Proof.
  induction stamps as [|a l IH]; intros prev; simpl; [reflexivity | apply IH].
Qed.

Lemma apartFrom_snoc (gap : Q) (stamps : list Q) (t : Q) :
  forall prev, apartFrom gap prev stamps -> gap <= t - lastOr prev stamps ->
    apartFrom gap prev (stamps ++ [t]).
Proof.
  induction stamps as [|a l IH]; intros prev Hl Ht; simpl in *.
  - split; [assumption | exact I].
  - destruct Hl as [Ha Hl]. split; [assumption | now apply IH].
Qed.

Lemma apart_snoc (gap prev : Q) (stamps : list Q) (t : Q) :
  apart gap stamps -> (stamps <> [] -> gap <= t - lastOr prev stamps) ->
  apart gap (stamps ++ [t]).
Proof.
  destruct stamps as [|a l]; simpl; intros Hl Ht; [exact I|].
  apply apartFrom_snoc; [assumption | apply Ht; discriminate].
Qed.

Lemma lastOr_rev {A : Type} (stamp : A -> Q) (l : list A) (x : A) (r : list A) :
  rev l = x :: r -> forall prev, lastOr prev (map stamp l) = stamp x.
Proof.
  intros H prev.
  assert (E : l = rev r ++ [x]).
  { rewrite <- (rev_involutive l), H. reflexivity. }
  rewrite E, map_app. apply lastOr_snoc.
Qed.

Section Detection.

Variable w : ML.World.
Variable d : Q.

Lemma ML_capture_keptApart (e : ML.Engine) (shots : list ML.Screenshot) (n : Z)
    (objects : list ML.DetectedObject) (frames : Z) (k : nat) :
  ML.screenshots e = shots ->
  ML.currentTime e < d - (1 # 10) ->
  keptApart (d - (1 # 10)) e ->
  (shots <> [] ->
   ML.MIN_SCREENSHOT_INTERVAL <= ML.currentTime e - ML.lastScreenshotTime e) ->
  keptApart (d - (1 # 10))
    (ML.mkEngine
       (shots ++
          [ML.mkScreenshot n (drawn (ML.video w) (ML.round e)) (ML.currentTime e) n])
       objects frames (ML.currentTime e)
       (ML.currentTime e + ML.SAMPLE_INTERVAL) k).
Proof.
  intros Hs Hnow (Hap & Hlast & Hall) Hgap. subst shots.
  unfold keptApart. cbn [ML.screenshots ML.lastScreenshotTime].
  rewrite map_app. cbn [map ML.timestamp].
  repeat split.
  - apply (apart_snoc _ 0); [assumption|].
    intros Hne. rewrite (Hlast Hne). apply Hgap.
    intros Hnil. apply Hne. now rewrite Hnil.
  - intros _. apply lastOr_snoc.
  - apply Forall_app. split; [assumption | constructor; [assumption | constructor]].
Qed.

Lemma ML_iteration_keptApart (e : ML.Engine) :
  ML.currentTime e < d - (1 # 10) ->
  keptApart (d - (1 # 10)) e ->
  keptApart (d - (1 # 10)) (ML.iteration w e).
Proof.
  intros Hnow K. unfold ML.iteration.
  destruct (ML.screenshots e) as [|s0 rest] eqn:Hs.
  - apply ML_capture_keptApart; [assumption | assumption | |].
    + unfold keptApart. now rewrite Hs.
    + intros Hne. congruence.
  - assert (K' : keptApart (d - (1 # 10)) e) by exact K.
    unfold keptApart in K. rewrite Hs in K.
    destruct (_ || _); [|exact K].
    destruct (_ && _) eqn:Hc; [|exact K].
    apply andb_true_iff in Hc. destruct Hc as [_ Hgap]. apply Qgeb_ge in Hgap.
    apply ML_capture_keptApart; [assumption | assumption | exact K' |].
    intros _. exact Hgap.
Qed.

Lemma ML_sampling_keptApart (fuel : nat) :
  forall e e',
    ML.sampling fuel w d e = Some e' ->
    keptApart (d - (1 # 10)) e -> keptApart (d - (1 # 10)) e'.
Proof.
  induction fuel as [|fuel IH]; intros e e' H K; simpl in H; [discriminate|].
  destruct (Qltb (ML.currentTime e) (d - (1 # 10))) eqn:Hc.
  - apply Qltb_lt in Hc. apply (IH _ _ H), ML_iteration_keptApart; assumption.
  - now inversion H; subst.
Qed.

Lemma ML_finalFrame_apart (e : ML.Engine) :
  keptApart (d - (1 # 10)) e ->
  apart ML.MIN_SCREENSHOT_INTERVAL (map ML.timestamp (ML.finalFrame w d e)).
Proof.
  intros (Hap & Hlast & Hall). unfold ML.finalFrame.
  destruct (rev (ML.screenshots e)) as [|lastShot r] eqn:Hrev; [assumption|].
  destruct (Qgeb _ _) eqn:Hg; [|assumption].
  apply Qgeb_ge in Hg.
  rewrite map_app. cbn [map ML.timestamp].
  assert (Hl := lastOr_rev ML.timestamp _ _ _ Hrev 0).
  assert (Hin : In (ML.timestamp lastShot) (map ML.timestamp (ML.screenshots e))).
  { apply in_map, in_rev. rewrite Hrev. now left. }
  rewrite Forall_forall in Hall. apply Hall in Hin.
  rewrite Qabs_pos in Hg by lra.
  apply (apart_snoc _ 0); [assumption|].
  intros _. rewrite Hl. exact Hg.
Qed.

Lemma ML_iteration_clock (e : ML.Engine) :
  ML.currentTime (ML.iteration w e) = ML.currentTime e + ML.SAMPLE_INTERVAL.
Proof.
  unfold ML.iteration.
  destruct (ML.screenshots e); [reflexivity|].
  destruct (_ || _); [|reflexivity].
  destruct (_ && _); reflexivity.
Qed.

Lemma ML_sampling_terminates (n : nat) :
  forall e,
    d - (1 # 10) - ML.currentTime e <= inject_Z (Z.of_nat n) * ML.SAMPLE_INTERVAL ->
    exists e', ML.sampling (Datatypes.S n) w d e = Some e'.
Proof.
  induction n as [|n IH]; intros e Hrem; cbn [ML.sampling].
  - destruct (Qltb (ML.currentTime e) (d - (1 # 10))) eqn:Hc; [|eauto].
    apply Qltb_lt in Hc. change (inject_Z (Z.of_nat 0)) with 0 in Hrem. lra.
  - destruct (Qltb (ML.currentTime e) (d - (1 # 10))) eqn:Hc; [|eauto].
    apply IH. rewrite ML_iteration_clock.
    rewrite Nat2Z.inj_succ, <- Z.add_1_r, inject_Z_plus in Hrem.
    change (inject_Z 1) with 1 in Hrem. unfold ML.SAMPLE_INTERVAL in *. lra.
Qed.

Lemma ML_iteration_appends (e : ML.Engine) :
  exists more, ML.screenshots (ML.iteration w e) = ML.screenshots e ++ more.
Proof.
  unfold ML.iteration.
  destruct (ML.screenshots e) as [|s0 rest]; [eexists; reflexivity|].
  destruct (_ || _); [|exists []; now rewrite app_nil_r].
  destruct (_ && _); [eexists; reflexivity | exists []; now rewrite app_nil_r].
Qed.

Lemma ML_sampling_appends (fuel : nat) :
  forall e e', ML.sampling fuel w d e = Some e' ->
    exists more, ML.screenshots e' = ML.screenshots e ++ more.
Proof.
  induction fuel as [|fuel IH]; intros e e' H; simpl in H; [discriminate|].
  destruct (Qltb (ML.currentTime e) (d - (1 # 10))).
  - destruct (IH _ _ H) as [m1 H1]. destruct (ML_iteration_appends e) as [m2 H2].
    exists (m2 ++ m1). now rewrite H1, H2, app_assoc.
  - inversion H; subst. exists []. now rewrite app_nil_r.
Qed.

Lemma ML_sampling_first (fuel : nat) (e' : ML.Engine) :
  ML.sampling fuel w d ML.start = Some e' ->
  (d <= 1 # 10 -> ML.screenshots e' = []) /\
  (1 # 10 < d -> exists rest, ML.screenshots e' = firstCapture w :: rest).
Proof.
  destruct fuel as [|fuel]; [discriminate|]. cbn [ML.sampling].
  destruct (Qltb (ML.currentTime ML.start) (d - (1 # 10))) eqn:Hc.
  - apply Qltb_lt in Hc. cbn in Hc. intros H.
    split; [intros Hd; lra|]. intros _.
    destruct (ML_sampling_appends fuel _ _ H) as [more Hmore].
    exists more. rewrite Hmore. reflexivity.
  - apply Qltb_ge in Hc. cbn in Hc. intros H. inversion H; subst e'.
    split; [reflexivity | intros Hd; lra].
Qed.

End Detection.

(** X24.  The screenshots that the object-detection processor returns are
    pairwise at least one second apart, the final frame included: its gate
    and its time stamp both use [duration]. *)
Theorem ML_screenshots_apart (fuel : nat) (w : ML.World) (shots : list ML.Screenshot) :
  ML.processVideo fuel w = Some (ML.Returned shots) ->
  apart ML.MIN_SCREENSHOT_INTERVAL (map ML.timestamp shots).
Proof.
  unfold ML.processVideo.
  destruct (negb (ML.modelLoads w)); [discriminate|].
  destruct (negb (hasContext (ML.video w))); [discriminate|].
  destruct (_ || _); [discriminate|].
  destruct (duration (ML.video w)) as [d|]; [|discriminate].
  destruct (Qeq_bool d 0); [discriminate|].
  destruct (ML.sampling fuel w d ML.start) as [e|] eqn:He; [|discriminate].
  intros H. inversion H; subst shots.
  apply ML_finalFrame_apart, (ML_sampling_keptApart w d fuel _ _ He).
  repeat split; cbn; try constructor. intros Hne. congruence.
Qed.

(** X25.  On a loadable model and a valid video of duration [d] the
    object-detection processor returns after at most [ceil (2 d)]
    iterations; the result is empty when [d <= 0.1] and starts with the
    frame at 0 s otherwise. *)
Theorem ML_run_returns (w : ML.World) (d : Q) :
  ML.modelLoads w = true -> hasContext (ML.video w) = true ->
  videoWidth (ML.video w) <> 0%Z -> videoHeight (ML.video w) <> 0%Z ->
  duration (ML.video w) = Finite d -> ~ d == 0 ->
  exists shots,
    ML.processVideo (Datatypes.S (Z.to_nat (Qceiling (2 * d)))) w
    = Some (ML.Returned shots) /\
    (d <= 1 # 10 -> shots = []) /\
    (1 # 10 < d -> exists rest, shots = firstCapture w :: rest).
Proof.
  intros Hm Hc Hw Hh Hd Hnz.
  destruct (ML_sampling_terminates w d (Z.to_nat (Qceiling (2 * d))) ML.start)
    as [e He].
  { assert (Hceil := Qle_ceiling (2 * d)).
    assert (Hn : inject_Z (Qceiling (2 * d))
                 <= inject_Z (Z.of_nat (Z.to_nat (Qceiling (2 * d)))))
      by (rewrite <- Zle_Qle; lia).
    assert (H0 : 0 <= inject_Z (Z.of_nat (Z.to_nat (Qceiling (2 * d))))).
    { change 0 with (inject_Z 0). rewrite <- Zle_Qle. lia. }
    cbn [ML.currentTime ML.start]. unfold ML.SAMPLE_INTERVAL. lra. }
  destruct (ML_sampling_first w d _ e He) as [Hshort Hlong].
  exists (ML.finalFrame w d e).
  split; [|split].
  - unfold ML.processVideo. rewrite Hm, Hc, Hd. cbn [negb].
    apply Z.eqb_neq in Hw, Hh. rewrite Hw, Hh. cbn [orb].
    destruct (Qeq_bool d 0) eqn:Hz; [apply Qeq_bool_iff in Hz; contradiction|].
    now rewrite He.
  - intros Hs. unfold ML.finalFrame. now rewrite (Hshort Hs).
  - intros Hl. destruct (Hlong Hl) as [rest Hrest].
    unfold ML.finalFrame. rewrite Hrest.
    destruct (rev (firstCapture w :: rest)); [eauto|].
    destruct (Qgeb _ _); [|eauto].
    eexists. reflexivity.
Qed.

(** ** The caller and the number of samples *)

Lemma returned_after_bootstrap (video : Video) (opts : ProcessingOptions)
    (fuel : nat) (d : Q) (e : Engine) :
  hasContext video = true ->
  sampling video opts fuel d (bootstrap video opts) = Some e ->
  exists rest,
    finalFrame video opts d (pendingChange opts e) = screenshot0 video opts :: rest.
Proof.
  intros Hctx He.
  rewrite (proj2 (pending_change_idle_aux video opts) fuel d e He).
  destruct (sampling_iterations video opts fuel d _ _ He) as [n ->].
  destruct (iterations_append video opts n (bootstrap video opts)) as [m1 H1].
  destruct (finalFrame_appends video opts d
              (iterations video opts n (bootstrap video opts))) as [m2 H2].
  destruct (bootstrap_emits video opts Hctx) as (Hs & _ & _).
  exists (m1 ++ m2). rewrite H2, H1, Hs. reflexivity.
Qed.

(** X16.  As [App.tsx] calls it - sample interval 0.2 s, stability window 0.5 s,
    minimum interval from its slider (at least 0.25 s) - a run on a valid
    video of duration [d] returns after at most [ceil (8 d)] iterations of
    the sampling loop, with the frame at 0.6 s as its first screenshot. *)
Theorem app_run_returns (video : Video) (changeThreshold minInterval blurThreshold d : Q) :
  hasContext video = true ->
  videoWidth video <> 0%Z -> videoHeight video <> 0%Z ->
  duration video = Finite d -> ~ d == 0 ->
  1 # 4 <= minInterval ->
  exists first rest,
    processVideo (Datatypes.S (Z.to_nat (Qceiling (8 * d)))) video
      (appOptions changeThreshold minInterval blurThreshold)
    = Some (Returned (first :: rest)) /\
    dataUrl first = drawn video 1 /\ timestamp first == 6 # 10.
Proof.
  intros Hctx Hw Hh Hd Hnz Hmi.
  set (options := appOptions changeThreshold minInterval blurThreshold).
  set (opts := resolveOptions options).
  destruct (sampling_terminates video opts d (1 # 8)) with
    (n := Z.to_nat (Qceiling (8 * d))) (e := bootstrap video opts) as [e He].
  - reflexivity.
  - cbn. discriminate.
  - cbn [opts options resolveOptions appOptions minScreenshotInterval
           minScreenshotInterval_opt orElse]. lra.
  - assert (Hceil := Qle_ceiling (8 * d)).
    assert (Hn : inject_Z (Qceiling (8 * d))
                 <= inject_Z (Z.of_nat (Z.to_nat (Qceiling (8 * d)))))
      by (rewrite <- Zle_Qle; lia).
    assert (H0 : 0 <= inject_Z (Z.of_nat (Z.to_nat (Qceiling (8 * d))))).
    { change 0 with (inject_Z 0). rewrite <- Zle_Qle. lia. }
    change (currentTime (bootstrap video opts))
      with ((1 # 10) + (5 # 10) + (2 # 10)).
    lra.
  - destruct (returned_after_bootstrap video opts _ d e Hctx He) as [rest Hrest].
    exists (screenshot0 video opts), rest. split; [|split; reflexivity].
    unfold processVideo. fold options opts. rewrite Hctx, Hd. cbn [negb].
    apply Z.eqb_neq in Hw, Hh. rewrite Hw, Hh. cbn [orb].
    destruct (Qeq_bool d 0) eqn:Hz; [apply Qeq_bool_iff in Hz; contradiction|].
    now rewrite He, Hrest.
Qed.

(** ** The Laplacian responses *)

Lemma laplacian_row_length (imageData : ImageData) (y : Z) (acc : list Q) :
  (2 <= width imageData)%Z ->
  length
    (for_loop (Z.to_nat (width imageData)) 1%Z 1%Z
       (fun x => (x <? width imageData - 1)%Z)
       (fun x acc => acc ++ [laplacianValue imageData x y]) acc)
  = (length acc + Z.to_nat (width imageData - 2))%nat.
Proof.
  intros Hw.
  destruct (for_loop_count
              (fun k (s : list Q) =>
                 Z.of_nat (length s) = (Z.of_nat (length acc) + k)%Z /\
                 (k = 0 \/ k < width imageData - 1)%Z)
              1 1 (fun x => (x <? width imageData - 1)%Z)
              (fun x acc => acc ++ [laplacianValue imageData x y]))
    with (fuel := Z.to_nat (width imageData)) (k := 0%Z) (s := acc)
    as (k & Hk & (Hlen & Hb) & Hexit).
  - intros k s Hk Hc [Hl _]. apply Z.ltb_lt in Hc.
    split; [rewrite length_app; cbn [length]; lia | right; lia].
  - lia.
  - split; [lia | now left].
  - change (1 + 0 * 1)%Z with 1%Z in Hlen.
    destruct Hexit as [Hexit|Hexit]; [apply Z.ltb_ge in Hexit|]; lia.
Qed.

Lemma laplacianOf_length (imageData : ImageData) :
  (2 <= width imageData)%Z -> (2 <= height imageData)%Z ->
  length (laplacianOf imageData)
  = Z.to_nat ((width imageData - 2) * (height imageData - 2)).
Proof.
  intros Hw Hh. unfold laplacianOf.
  destruct (for_loop_count
              (fun k (s : list Q) =>
                 Z.of_nat (length s) = (k * (width imageData - 2))%Z /\
                 (k = 0 \/ k < height imageData - 1)%Z)
              1 1 (fun y => (y <? height imageData - 1)%Z)
              (fun y acc =>
                 for_loop (Z.to_nat (width imageData)) 1%Z 1%Z
                   (fun x => (x <? width imageData - 1)%Z)
                   (fun x acc => acc ++ [laplacianValue imageData x y]) acc))
    with (fuel := Z.to_nat (height imageData)) (k := 0%Z) (s := @nil Q)
    as (k & Hk & (Hlen & Hb) & Hexit).
  - intros k s Hk Hc [Hl _]. apply Z.ltb_lt in Hc.
    split; [rewrite laplacian_row_length by assumption; lia | right; lia].
  - lia.
  - split; [reflexivity | now left].
  - change (1 + 0 * 1)%Z with 1%Z in Hlen.
    assert (Hkk : k = (height imageData - 2)%Z).
    { destruct Hexit as [Hexit|Hexit]; [apply Z.ltb_ge in Hexit|]; lia. }
    subst k. apply Nat2Z.inj. rewrite Hlen, Z2Nat.id by nia. ring.
Qed.

Lemma varianceOf_single (v : Q) : varianceOf [v] == 0.
Proof.
  unfold varianceOf, sumOf. cbn [fold_left length Z.of_nat Pos.of_succ_nat].
  change (inject_Z 1) with 1. simpl Qpower. field.
Qed.

(** X7.  The sharpness score is the variance of [(width - 2) * (height - 2)]
    Laplacian responses, one per interior pixel; a frame with a single
    interior pixel (3 x 3) therefore scores 0 whatever it shows. *)
Theorem laplacian_one_response_per_interior_pixel (imageData : ImageData) :
  ((2 <= width imageData)%Z -> (2 <= height imageData)%Z ->
   length (laplacianOf imageData)
   = Z.to_nat ((width imageData - 2) * (height imageData - 2))) /\
  (width imageData = 3%Z -> height imageData = 3%Z ->
   calculateBlurScore imageData == 0).
Proof.
  split; [apply laplacianOf_length|].
  intros Hw Hh. unfold calculateBlurScore.
  assert (Hl := laplacianOf_length imageData ltac:(lia) ltac:(lia)).
  rewrite Hw, Hh in Hl. cbn in Hl.
  destruct (laplacianOf imageData) as [|v [|v' rest]]; try discriminate.
  apply varianceOf_single.
Qed.

(** ** The blur gate *)

Section BlurGate.

Variable video : Video.
Variable opts : ProcessingOptions.

Lemma iteration_sharp (e : Engine) :
  noCandidateWhilePending (changeDetectedAt e) (stableFrames e) ->
  Forall (sharpShot opts) (tl (screenshots e)) ->
  screenshots e <> [] ->
  Forall (sharpShot opts) (tl (screenshots (iteration video opts e))) /\
  screenshots (iteration video opts e) <> [].
Proof.
  intros Inv Hall Hne. unfold iteration.
  destruct (captureFrame video (captures e)) as [currentFrame|]; [|now split].
  destruct (baselineFrame e) as [baseline|]; [|now split].
  set (difference := calculateFrameDifference baseline currentFrame true).
  set (recent := pushDifference opts (recentDifferences e) difference).
  set (stable := collectStable opts (changeDetectedAt e) (stableFrames e)
                   (currentTime e) currentFrame difference).
  assert (Hs : noCandidateWhilePending (changeDetectedAt e) stable).
  { intros Hset. unfold stable. rewrite collectStable_pending by assumption.
    now apply Inv. }
  assert (Hd := detectChange_keeps (changeDetectedAt e) stable (currentTime e)
                  (isSignificantChange opts recent difference) Hs).
  destruct (detectChange (changeDetectedAt e) stable (currentTime e)
              (isSignificantChange opts recent difference)) as [changeAt stable'].
  cbn [fst snd] in Hd.
  destruct (windowElapsed opts changeAt (currentTime e)) eqn:Hw; [|now split].
  assert (Hset : isSet changeAt = true).
  { unfold windowElapsed in Hw. destruct changeAt as [t|]; [|discriminate].
    apply andb_true_iff in Hw. exact (proj1 Hw). }
  rewrite (Hd Hset). unfold resolveWindow.
  cbn [length Z.of_nat Z.ltb Z.eqb andb]. change (0 ?= 0)%Z with Eq. cbn match.
  destruct (Qgeb (currentTime e - lastScreenshotTime e) (minScreenshotInterval opts));
    [|now split].
  destruct (Qgeb (calculateBlurScore currentFrame) (minBlurThreshold opts)) eqn:Hb;
    [|now split].
  apply Qgeb_ge in Hb. cbn [screenshots]. split.
  - destruct (screenshots e) as [|s0 rest]; [congruence|].
    cbn [app tl] in *. apply Forall_app. split; [assumption|].
    constructor; [|constructor]. split; [exact Hb | reflexivity].
  - destruct (screenshots e); discriminate.
Qed.

Lemma iterations_sharp (n : nat) :
  forall e,
    noCandidateWhilePending (changeDetectedAt e) (stableFrames e) ->
    Forall (sharpShot opts) (tl (screenshots e)) ->
    screenshots e <> [] ->
    Forall (sharpShot opts) (tl (screenshots (iterations video opts n e))).
Proof.
  induction n as [|n IH]; intros e Inv Hall Hne; simpl; [assumption|].
  destruct (iteration_sharp e Inv Hall Hne) as [Hall' Hne'].
  apply IH; [now apply iteration_keeps | assumption | assumption].
Qed.

End BlurGate.

(** X13.  Every screenshot of a run but the first passed the blur gate: its
    score, the sharpness of its own frame, is at least [minBlurThreshold];
    only screenshot 0 is emitted without the gate. *)
Theorem later_screenshots_sharp (fuel : nat) (video : Video)
    (options : PartialOptions) (shots : list Screenshot) :
  processVideo fuel video options = Some (Returned shots) ->
  exists first rest,
    shots = first :: rest /\
    blurScore first = calculateBlurScore (dataUrl first) /\
    Forall (sharpShot (resolveOptions options)) rest.
Proof.
  unfold processVideo.
  set (opts := resolveOptions options).
  destruct (hasContext video) eqn:Hctx; [|discriminate]. cbn [negb].
  destruct ((videoWidth video =? 0)%Z || (videoHeight video =? 0)%Z);
    [discriminate|].
  destruct (duration video) as [d|]; [|discriminate].
  destruct (Qeq_bool d 0); [discriminate|].
  destruct (sampling video opts fuel d (bootstrap video opts)) as [e|] eqn:He;
    [|discriminate].
  intros H. inversion H; subst shots; clear H.
  rewrite (proj2 (pending_change_idle_aux video opts) fuel d e He).
  destruct (bootstrap_emits video opts Hctx) as (Hs & _ & _).
  destruct (bootstrap_idle video opts) as [Hc _].
  destruct (sampling_iterations video opts fuel d _ _ He) as [n Hn].
  assert (Hall := iterations_sharp video opts n (bootstrap video opts)).
  rewrite <- Hn in Hall.
  destruct (iterations_append video opts n (bootstrap video opts)) as [more Hmore].
  rewrite <- Hn, Hs in Hmore. cbn [app] in Hmore.
  rewrite Hmore in Hall. cbn [tl] in Hall.
  assert (Hmore' : Forall (sharpShot opts) more).
  { apply Hall.
    - rewrite Hc. intros Hset. discriminate Hset.
    - rewrite Hs. constructor.
    - rewrite Hs. discriminate. }
  exists (screenshot0 video opts).
  unfold finalFrame. rewrite Hmore.
  destruct (captureFrame video (captures e)) as [final|]; [|eauto].
  destruct (rev (screenshot0 video opts :: more)) as [|lastShot r].
  - destruct (Qgeb (calculateBlurScore final) (minBlurThreshold opts)) eqn:Hb;
      [|eauto].
    apply Qgeb_ge in Hb. eexists. split; [reflexivity|]. split; [reflexivity|].
    apply Forall_app. split; [assumption|].
    constructor; [split; [exact Hb | reflexivity] | constructor].
  - destruct (Qgeb (Qabs _) _); [|cbn [andb]; eauto]. cbn [andb].
    destruct (Qgeb (calculateBlurScore final) (minBlurThreshold opts)) eqn:Hb;
      [|eauto].
    apply Qgeb_ge in Hb. eexists. split; [reflexivity|]. split; [reflexivity|].
    apply Forall_app. split; [assumption|].
    constructor; [split; [exact Hb | reflexivity] | constructor].
Qed.

(** ** Sorting the candidates *)

Lemma insertBy_perm {A : Type} (cmp : A -> A -> Q) (x : A) (sorted : list A) :
  Permutation (x :: sorted) (insertBy cmp x sorted).
Proof.
  induction sorted as [|y rest IH]; simpl; [reflexivity|].
  destruct (Qgtb (cmp y x) 0); [reflexivity|].
  rewrite perm_swap. now constructor.
Qed.

Lemma sortBy_perm {A : Type} (cmp : A -> A -> Q) (xs : list A) :
  Permutation xs (sortBy cmp xs).
Proof.
  unfold sortBy.
  assert (H : forall acc,
             Permutation (acc ++ xs)
               (fold_left (fun sorted x => insertBy cmp x sorted) xs acc)).
  { induction xs as [|x rest IH]; intros acc; simpl.
    - now rewrite app_nil_r.
    - rewrite <- IH, <- insertBy_perm. symmetry. apply Permutation_middle. }
  apply (H []).
Qed.

Lemma insertBy_sharpest_first (x : StableFrame) (sorted : list StableFrame) :
  StronglySorted (fun a b => sharpness b <= sharpness a) sorted ->
  StronglySorted (fun a b => sharpness b <= sharpness a)
    (insertBy bySharpness x sorted).
Proof.
  induction 1 as [|y rest Hrest IH Hy]; simpl.
  - constructor; constructor.
  - unfold bySharpness at 1.
    destruct (Qgtb (sharpness x - sharpness y) 0) eqn:Hg.
    + apply Qltb_lt in Hg.
      constructor; [now constructor|].
      constructor; [lra|].
      eapply Forall_impl; [|exact Hy]. intros z Hz. cbn beta in *. lra.
    + apply Qltb_ge in Hg.
      constructor; [assumption|].
      rewrite <- insertBy_perm.
      constructor; [lra | assumption].
Qed.

(** X10.  Sorting the candidates by blur score keeps the same candidates and
    puts the sharpest first, so that the five kept by [slice(0, 5)] are
    five sharpest ones. *)
Theorem candidates_sorted_sharpest_first (stable : list StableFrame) :
  Permutation stable (sortBy bySharpness stable) /\
  StronglySorted (fun a b => sharpness b <= sharpness a)
    (sortBy bySharpness stable).
Proof.
  split; [apply sortBy_perm|].
  unfold sortBy.
  assert (H : forall acc,
             StronglySorted (fun a b => sharpness b <= sharpness a) acc ->
             StronglySorted (fun a b => sharpness b <= sharpness a)
               (fold_left (fun sorted x => insertBy bySharpness x sorted)
                  stable acc)).
  { induction stable as [|x rest IH]; intros acc Hacc; simpl; [assumption|].
    apply IH, insertBy_sharpest_first, Hacc. }
  apply H. constructor.
Qed.

(** ** The alpha channel *)

Lemma for_loop_ext {S : Type} (i0 step : Z) (cond : Z -> bool)
    (body body' : Z -> S -> S) :
  (forall k s, (0 <= k)%Z -> cond (i0 + k * step)%Z = true ->
               body (i0 + k * step)%Z s = body' (i0 + k * step)%Z s) ->
  forall fuel s,
    for_loop fuel i0 step cond body s = for_loop fuel i0 step cond body' s.
Proof.
  intros Hbody fuel.
  assert (H : forall k s, (0 <= k)%Z ->
             for_loop fuel (i0 + k * step)%Z step cond body s
             = for_loop fuel (i0 + k * step)%Z step cond body' s).
  { induction fuel as [|fuel IH]; intros k s Hk; simpl; [reflexivity|].
    destruct (cond (i0 + k * step)%Z) eqn:Hc; [|reflexivity].
    rewrite Hbody by assumption.
    replace (i0 + k * step + step)%Z with (i0 + (k + 1) * step)%Z by ring.
    apply IH. lia. }
  intros s. specialize (H 0%Z s ltac:(lia)).
  now replace (i0 + 0 * step)%Z with i0 in H by ring.
Qed.

Lemma sameColours_at (f g : ImageData) (m : Z) :
  sameColours f g -> (m mod 4 <> 3)%Z -> at_ (data f) m = at_ (data g) m.
Proof.
  intros (_ & _ & _ & H) Hm. unfold at_. rewrite H; [reflexivity|].
  destruct (Z.le_gt_cases 0 m) as [Hpos|Hneg].
  - intros Hmod. apply Hm.
    rewrite <- (Z2Nat.id m) by assumption.
    change 4%Z with (Z.of_nat 4). rewrite <- Nat2Z.inj_mod, Hmod. reflexivity.
  - replace (Z.to_nat m) with 0%nat by lia. discriminate.
Qed.

Lemma sameColours_pixel (f g : ImageData) (p c : Z) :
  sameColours f g -> (0 <= c < 3)%Z ->
  at_ (data f) (p * 4 + c) = at_ (data g) (p * 4 + c).
Proof.
  intros H Hc. apply sameColours_at; [assumption|].
  rewrite Z.add_comm, Z.mod_add by lia. rewrite Z.mod_small; lia.
Qed.

Lemma sameColours_sample (f g : ImageData) (i : Z) (hist : list Q) :
  sameColours f g -> (i mod 4 = 0)%Z ->
  addSample (data f) i hist = addSample (data g) i hist.
Proof.
  intros H Hi. unfold addSample.
  assert (Ei : i = (i / 4 * 4 + 0)%Z).
  { rewrite (Z.div_mod i 4) at 1 by lia. lia. }
  assert (E0 : at_ (data f) i = at_ (data g) i).
  { rewrite Ei. apply sameColours_pixel; [assumption | lia]. }
  assert (E1 : at_ (data f) (i + 1) = at_ (data g) (i + 1)).
  { replace (i + 1)%Z with (i / 4 * 4 + 1)%Z by lia.
    apply sameColours_pixel; [assumption | lia]. }
  assert (E2 : at_ (data f) (i + 2) = at_ (data g) (i + 2)).
  { replace (i + 2)%Z with (i / 4 * 4 + 2)%Z by lia.
    apply sameColours_pixel; [assumption | lia]. }
  now rewrite E0, E1, E2.
Qed.

Lemma sameColours_pixelDiff (f1 g1 f2 g2 : ImageData) (p : Z) :
  sameColours f1 g1 -> sameColours f2 g2 ->
  pixelDiff f1 f2 (p * 4) = pixelDiff g1 g2 (p * 4).
Proof.
  intros H1 H2. unfold pixelDiff.
  assert (E : forall f g, sameColours f g ->
             at_ (data f) (p * 4) = at_ (data g) (p * 4)).
  { intros f g H. replace (p * 4)%Z with (p * 4 + 0)%Z by lia.
    apply sameColours_pixel; [assumption | lia]. }
  rewrite (E _ _ H1), (E _ _ H2),
    (sameColours_pixel _ _ p 1 H1), (sameColours_pixel _ _ p 1 H2),
    (sameColours_pixel _ _ p 2 H1), (sameColours_pixel _ _ p 2 H2) by lia.
  reflexivity.
Qed.

Lemma sameColours_histogram (f1 g1 f2 g2 : ImageData) :
  sameColours f1 g1 -> sameColours f2 g2 ->
  calculateHistogramDifference f1 f2 = calculateHistogramDifference g1 g2.
Proof.
  intros H1 H2. unfold calculateHistogramDifference.
  assert (H1' := H1). destruct H1' as (Hw1 & Hh1 & Hl1 & _).
  assert (H2' := H2). destruct H2' as (Hw2 & Hh2 & _ & _).
  rewrite Hw1, Hh1, Hw2, Hh2.
  destruct (_ || _); [reflexivity|].
  assert (Hb : buildHistograms (data f1) (data f2)
               = buildHistograms (data g1) (data g2)).
  { unfold buildHistograms, sampleRate. rewrite Hl1.
    apply for_loop_ext. intros k [h1 h2] Hk _.
    set (i := (0 + k * (4 * Z.max 1
                 (Qfloor (inject_Z (Z.of_nat (length (data g1))) / 4 / 10000))))%Z).
    assert (Hmod : (i mod 4 = 0)%Z).
    { unfold i. rewrite Z.add_0_l, Z.mul_assoc, (Z.mul_comm k 4), <- Z.mul_assoc,
        Z.mul_comm. apply Z.mod_mul. lia. }
    now rewrite (sameColours_sample f1 g1 i h1 H1 Hmod),
      (sameColours_sample f2 g2 i h2 H2 Hmod). }
  rewrite Hb. unfold sampleRate. rewrite Hl1. reflexivity.
Qed.

Lemma sameColours_structure (f1 g1 f2 g2 : ImageData) :
  sameColours f1 g1 -> sameColours f2 g2 ->
  calculateStructuralDifference f1 f2 = calculateStructuralDifference g1 g2.
Proof.
  intros H1 H2. unfold calculateStructuralDifference.
  assert (H1' := H1). destruct H1' as (Hw1 & Hh1 & _ & _). rewrite Hw1, Hh1.
  assert (Hblock : forall bx by_, compareBlock f1 f2 bx by_ = compareBlock g1 g2 bx by_).
  { intros bx by_. unfold compareBlock. rewrite Hw1, Hh1.
    apply for_loop_ext. intros py s _ _.
    apply for_loop_ext. intros px [bd pc] _ _.
    now rewrite (sameColours_pixelDiff f1 g1 f2 g2). }
  assert (Hloop :
    for_loop (Z.to_nat (height g1 / blockSize)) 0%Z 1%Z
      (fun by_ => (by_ <? height g1 / blockSize)%Z)
      (fun by_ s =>
         for_loop (Z.to_nat (width g1 / blockSize)) 0%Z 1%Z
           (fun bx => (bx <? width g1 / blockSize)%Z)
           (fun bx '(totalDiff, blockCount) =>
              let '(blockDiff, pixelCount) := compareBlock f1 f2 bx by_ in
              if (0 <? pixelCount)%Z
              then (totalDiff + blockDiff / inject_Z pixelCount, (blockCount + 1)%Z)
              else (totalDiff, blockCount)) s) (0, 0%Z)
    = for_loop (Z.to_nat (height g1 / blockSize)) 0%Z 1%Z
      (fun by_ => (by_ <? height g1 / blockSize)%Z)
      (fun by_ s =>
         for_loop (Z.to_nat (width g1 / blockSize)) 0%Z 1%Z
           (fun bx => (bx <? width g1 / blockSize)%Z)
           (fun bx '(totalDiff, blockCount) =>
              let '(blockDiff, pixelCount) := compareBlock g1 g2 bx by_ in
              if (0 <? pixelCount)%Z
              then (totalDiff + blockDiff / inject_Z pixelCount, (blockCount + 1)%Z)
              else (totalDiff, blockCount)) s) (0, 0%Z)).
  { apply for_loop_ext. intros by_ s _ _.
    apply for_loop_ext. intros bx [td bc] _ _.
    now rewrite Hblock. }
  now rewrite Hloop.
Qed.

Lemma sameColours_fallback (f1 g1 f2 g2 : ImageData) :
  sameColours f1 g1 -> sameColours f2 g2 ->
  pixelComparison f1 f2 = pixelComparison g1 g2.
Proof.
  intros H1 H2. unfold pixelComparison.
  assert (H1' := H1). destruct H1' as (_ & _ & Hl1 & _). rewrite Hl1.
  cbv zeta.
  match goal with
  | |- (let '(_, _) := ?l in _) = (let '(_, _) := ?r in _) =>
      assert (Hloop : l = r); [|now rewrite Hloop]
  end.
  apply for_loop_ext. intros k [df n] _ _.
  replace (0 + k * (4 * 16))%Z with (k * 16 * 4 + 0)%Z by ring.
  replace (k * 16 * 4 + 0 + 1)%Z with (k * 16 * 4 + 1)%Z by ring.
  replace (k * 16 * 4 + 0 + 2)%Z with (k * 16 * 4 + 2)%Z by ring.
  rewrite !(sameColours_pixel f1 g1 _ _ H1), !(sameColours_pixel f2 g2 _ _ H2)
    by lia.
  reflexivity.
Qed.

Lemma sameColours_laplacian (f g : ImageData) :
  sameColours f g -> laplacianOf f = laplacianOf g.
Proof.
  intros H. unfold laplacianOf.
  assert (H' := H). destruct H' as (Hw & Hh & _ & _). rewrite Hw, Hh.
  assert (Hv : forall x y, laplacianValue f x y = laplacianValue g x y).
  { intros x y. unfold laplacianValue, getGray. rewrite Hw.
    assert (S1 := H).
    assert (E0 : forall p, at_ (data f) (p * 4) = at_ (data g) (p * 4)).
    { intros p. replace (p * 4)%Z with (p * 4 + 0)%Z by lia.
      apply sameColours_pixel; [assumption | lia]. }
    rewrite !E0, !(sameColours_pixel f g _ 1 S1), !(sameColours_pixel f g _ 2 S1)
      by lia.
    reflexivity. }
  apply for_loop_ext. intros ky acc _ _.
  apply for_loop_ext. intros kx acc' _ _.
  now rewrite Hv.
Qed.

(** X6.  Neither metric reads the alpha channel: frames that agree on the red,
    green and blue bytes of every pixel have the same differences and the
    same sharpness score. *)
Theorem metrics_ignore_alpha (f1 g1 f2 g2 : ImageData) (useHistogram : bool) :
  sameColours f1 g1 -> sameColours f2 g2 ->
  calculateFrameDifference f1 f2 useHistogram
  = calculateFrameDifference g1 g2 useHistogram /\
  calculateBlurScore f1 = calculateBlurScore g1.
Proof.
  intros H1 H2. split.
  - unfold calculateFrameDifference.
    rewrite (sameColours_histogram _ _ _ _ H1 H2),
      (sameColours_structure _ _ _ _ H1 H2),
      (sameColours_fallback _ _ _ _ H1 H2).
    destruct H1 as (Hw1 & Hh1 & _), H2 as (Hw2 & Hh2 & _).
    now rewrite Hw1, Hh1, Hw2, Hh2.
  - unfold calculateBlurScore. now rewrite (sameColours_laplacian _ _ H1).
Qed.

(** ** Instances of the further properties *)

(** The default history of three differences after two samples. *)
Lemma recentDifferences_bounded_witness :
  0 <= motionSmoothing defaults /\
  inject_Z (Z.of_nat (length (recentDifferences
                                (iterations stillVideo defaults 2
                                   (bootstrap stillVideo defaults)))))
  <= motionSmoothing defaults.
Proof.
  assert (H : 0 <= motionSmoothing defaults) by discriminate.
  split; [exact H|].
  exact (recentDifferences_bounded stillVideo defaults 2 H).
Defined.

(** The still video with the default options. *)
Lemma still_video_witness :
  hasContext stillVideo = true /\
  (forall k, drawn stillVideo k = sharpFrame) /\
  wellFormed sharpFrame /\
  0 <= changeThreshold (resolveOptions noOptions) /\
  screenshots (iterations stillVideo defaults 3 (bootstrap stillVideo defaults))
  = [screenshot0 stillVideo defaults].
Proof.
  assert (H : 0 <= changeThreshold (resolveOptions noOptions)) by discriminate.
  split; [reflexivity|]. split; [exact (fun _ => eq_refl)|].
  split; [exact wellFormed_sharpFrame|]. split; [exact H|].
  exact (proj1 (proj1 (still_video_one_or_two_screenshots stillVideo noOptions
                         sharpFrame eq_refl (fun _ => eq_refl)
                         wellFormed_sharpFrame H) 3%nat)).
Defined.

Lemma later_screenshots_witness :
  exists shots,
    duration stillVideo = Finite (165 # 100) /\
    processVideo 10 stillVideo noOptions = Some (Returned shots) /\
    exists first rest,
      shots = first :: rest /\
      timestamp first = (1 # 10) + stabilityWindow (resolveOptions noOptions) /\
      Forall (fun s => timestamp s <= (165 # 100) - (1 # 10)) rest.
Proof.
  eexists. split; [reflexivity|].
  assert (H : processVideo 10 stillVideo noOptions = Some (Returned _))
    by (vm_compute; reflexivity).
  split; [exact H|].
  exact (later_screenshots_before_the_end 10 stillVideo noOptions (165 # 100) _
           eq_refl H).
Defined.


Lemma pixel_fallback_witness :
  wellFormed sharpFrame /\ wellFormed flatFrame /\
  0 <= calculateFrameDifference sharpFrame flatFrame false <= 1 /\
  calculateFrameDifference sharpFrame sharpFrame false == 0.
Proof.
  split; [exact wellFormed_sharpFrame|].
  split; [exact wellFormed_flatFrame|].
  exact (pixel_fallback_range_and_identity sharpFrame flatFrame
           wellFormed_sharpFrame wellFormed_flatFrame).
Defined.

Lemma calculateFrameDifference_range_witness :
  wellFormed sharpFrame /\ wellFormed flatFrame /\
  - (1 # 4) <= calculateFrameDifference sharpFrame flatFrame true <= 1.
Proof.
  split; [exact wellFormed_sharpFrame|].
  split; [exact wellFormed_flatFrame|].
  exact (calculateFrameDifference_range sharpFrame flatFrame
           wellFormed_sharpFrame wellFormed_flatFrame).
Defined.


Lemma calculateStructuralDifference_small_witness :
  (width sharpFrame < blockSize)%Z /\
  calculateStructuralDifference sharpFrame flatFrame = 0.
Proof.
  assert (H : (width sharpFrame < blockSize)%Z) by reflexivity.
  split; [exact H|].
  exact (calculateStructuralDifference_small sharpFrame flatFrame (or_introl H)).
Defined.


Lemma getClarityIndex_witness :
  150 <= 250 /\
  Z.le (getClarityIndex (Some 150)) (getClarityIndex (Some 250)) /\
  (0 <= getClarityIndex (Some (calculateBlurScore sharpFrame)) <= 100)%Z.
Proof.
  assert (H : 150 <= 250) by discriminate.
  split; [exact H|].
  split; [exact (proj1 getClarityIndex_monotone_percentage 150 250 H)|].
  exact (proj2 getClarityIndex_monotone_percentage sharpFrame).
Defined.



Lemma properBox_farBox : properBox farBox.
Proof. split; discriminate. Qed.





Lemma other_classes :
  forall o1 o2, In o1 [shirt; shirtMoved] -> In o2 [tie] ->
                ML.class o1 <> ML.class o2.
Proof.
  intros o1 o2 [H1|[H1|[]]] [H2|[]]; subst; discriminate.
Qed.

Lemma calculateObjectSimilarity_other_classes_witness :
  ([shirt; shirtMoved] <> [] \/ [tie] <> []) /\
  ML.calculateObjectSimilarity [shirt; shirtMoved] [tie] == 0.
Proof.
  assert (H : [shirt; shirtMoved] <> [] \/ [tie] <> []) by (left; discriminate).
  split; [exact H|].
  exact (calculateObjectSimilarity_other_classes [shirt; shirtMoved] [tie] H
           other_classes).
Defined.

(** The shirt world: screenshots at 0 s and at 1.65 s. *)
Lemma ML_screenshots_apart_witness :
  exists shots,
    ML.processVideo 10 shirtWorld = Some (ML.Returned shots) /\
    apart ML.MIN_SCREENSHOT_INTERVAL (map ML.timestamp shots).
Proof.
  eexists.
  assert (H : ML.processVideo 10 shirtWorld = Some (ML.Returned _))
    by (vm_compute; reflexivity).
  split; [exact H|].
  exact (ML_screenshots_apart 10 shirtWorld _ H).
Defined.

Lemma ML_run_returns_witness :
  ML.modelLoads shirtWorld = true /\
  duration (ML.video shirtWorld) = Finite (165 # 100) /\
  exists shots,
    ML.processVideo (Datatypes.S (Z.to_nat (Qceiling (2 * (165 # 100))))) shirtWorld
    = Some (ML.Returned shots) /\
    (165 # 100 <= 1 # 10 -> shots = []) /\
    (1 # 10 < 165 # 100 -> exists rest, shots = firstCapture shirtWorld :: rest).
Proof.
  split; [reflexivity|]. split; [reflexivity|].
  apply (ML_run_returns shirtWorld (165 # 100) eq_refl eq_refl);
    [discriminate | discriminate | reflexivity | intros H; discriminate H].
Defined.

Lemma app_run_returns_witness :
  hasContext stillVideo = true /\ 1 # 4 <= 1 /\
  exists first rest,
    processVideo (Datatypes.S (Z.to_nat (Qceiling (8 * (165 # 100))))) stillVideo
      (appOptions (15 # 100) 1 100)
    = Some (Returned (first :: rest)) /\
    dataUrl first = drawn stillVideo 1 /\ timestamp first == 6 # 10.
Proof.
  assert (H : 1 # 4 <= 1) by discriminate.
  split; [reflexivity|]. split; [exact H|].
  apply (app_run_returns stillVideo (15 # 100) 1 100 (165 # 100) eq_refl);
    [discriminate | discriminate | reflexivity | intros Hz; discriminate Hz
    | exact H].
Defined.

(** The sharp 4 x 3 frame has two interior pixels; a 3 x 3 frame scores 0. *)
Lemma laplacian_witness :
  (2 <= width sharpFrame)%Z /\ (2 <= height sharpFrame)%Z /\
  length (laplacianOf sharpFrame) = 2%nat /\
  calculateBlurScore (mkImageData 3 3 (data sharpFrame)) == 0.
Proof.
  assert (Hw : (2 <= width sharpFrame)%Z) by discriminate.
  assert (Hh : (2 <= height sharpFrame)%Z) by discriminate.
  split; [exact Hw|]. split; [exact Hh|].
  split.
  - exact (proj1 (laplacian_one_response_per_interior_pixel sharpFrame) Hw Hh).
  - exact (proj2 (laplacian_one_response_per_interior_pixel
                    (mkImageData 3 3 (data sharpFrame))) eq_refl eq_refl).
Defined.

Lemma later_screenshots_sharp_witness :
  exists shots,
    processVideo 10 stillVideo noOptions = Some (Returned shots) /\
    exists first rest,
      shots = first :: rest /\
      blurScore first = calculateBlurScore (dataUrl first) /\
      Forall (sharpShot (resolveOptions noOptions)) rest.
Proof.
  eexists.
  assert (H : processVideo 10 stillVideo noOptions = Some (Returned _))
    by (vm_compute; reflexivity).
  split; [exact H|].
  exact (later_screenshots_sharp 10 stillVideo noOptions _ H).
Defined.

Lemma sameColours_fadedFrame : sameColours sharpFrame fadedFrame.
Proof.
  repeat split.
  intros i Hi.
  destruct (Nat.lt_ge_cases i 48) as [Hlt|Hge].
  - assert (H : forallb
                  (fun i => (i mod 4 =? 3)%nat
                            || Byte.eqb (nth i (data sharpFrame) x00)
                                 (nth i (data fadedFrame) x00))
                  (seq 0 48) = true) by (vm_compute; reflexivity).
    rewrite forallb_forall in H. specialize (H i).
    destruct (orb_prop _ _ (H ltac:(apply in_seq; lia))) as [Hm|Hb].
    + apply Nat.eqb_eq in Hm. contradiction.
    + now apply Byte.byte_dec_bl.
  - rewrite !nth_overflow; [reflexivity | exact Hge | exact Hge].
Qed.

(** The sharp frame and the same frame half transparent. *)
Lemma metrics_ignore_alpha_witness :
  sameColours sharpFrame fadedFrame /\ sameColours flatFrame flatFrame /\
  calculateFrameDifference sharpFrame flatFrame true
  = calculateFrameDifference fadedFrame flatFrame true /\
  calculateBlurScore sharpFrame = calculateBlurScore fadedFrame.
Proof.
  assert (H : sameColours flatFrame flatFrame) by (repeat split).
  split; [exact sameColours_fadedFrame|]. split; [exact H|].
  exact (metrics_ignore_alpha sharpFrame fadedFrame flatFrame flatFrame true
           sameColours_fadedFrame H).
Defined.
